(** * Cache, bounded queue and prefetch of the stock dashboard's data layer

    A shallow embedding of [src/utils/storage.ts] (class PersistentStorage),
    [src/utils/requestQueue.ts] (class RequestQueue) and of the cache-aside
    functions of [src/services/api.ts] ([fetchWithCache], [fetchStocks],
    [prefetchAllStocksDetails], [refreshStocksData], [fetchFilteredStocks],
    the cache keys of the per-stock fetch functions, the derived metrics).

    Conventions.
    - The browser is explicit state: [localStorage] is a finite map from
      strings to strings and [Date.now()] takes the next reading of a clock.
    - Mutating methods are state transformers in the monad [State].
    - An [async] function is cut at its [await]s: it returns a resumption
      ([Async]) that is either settled, or waits for a queue handle and
      carries the code after the [await] as its continuation. *)

From Stdlib Require Import ZArith Ascii String List Floats.
From stdpp Require Import gmap strings list pretty.

(* set_solver clears hypotheses that its own substitutions have removed. *)
#[local] Set Warnings "-clear-no-such-hyp".

Open Scope Z_scope.

(** ** State monad *)

Definition State (S A : Type) : Type := S → A * S.

Definition ret {S A} (a : A) : State S A := λ s, (a, s).
Definition bind {S A B} (m : State S A) (f : A → State S B) : State S B :=
  λ s, let '(a, s') := m s in f a s'.

Notation "'let*' x ':=' m 'in' k" := (bind m (λ x, k))
  (at level 10, x pattern, m at level 100, k at level 200).
Notation "m ';;;' k" := (bind m (λ _, k))
  (at level 100, k at level 200, right associativity).

Definition gets {S A} (f : S → A) : State S A := λ s, (f s, s).
Definition modify {S} (f : S → S) : State S unit := λ s, ((), f s).

(** [forEach xs f]: [xs.forEach(f)] *)
Fixpoint forEach {S A} (xs : list A) (f : A → State S unit) : State S unit :=
  match xs with
  | [] => ret ()
  | x :: rest => f x ;;; forEach rest f
  end.

(** ** Promise outcomes and thrown values *)

(** What the code throws and rejects with: [Error] objects ([new Error(..)],
    the [TypeError] of a failed [fetch]), the plain [ApiError] object
    [{code, message, details}] that [fetchStocks] throws, anything else. *)
Inductive Reason : Type :=
  | Error (message : string)
  | ApiError (code message : string) (details : Reason)
  | Thrown (what : string).

Inductive Settled (A : Type) : Type :=
  | Fulfilled (value : A)
  | Rejected (reason : Reason).
Arguments Fulfilled {A} value.
Arguments Rejected {A} reason.

Definition is_rejected {A} (r : Settled A) : bool :=
  match r with Rejected _ => true | Fulfilled _ => false end.

(** ** The browser: localStorage and the clock *)

Record Browser : Type := mkBrowser {
  localStorage : gmap string string;
  reads : nat   (* how many times Date.now() has been read *)
}.

(** interface CacheItem<T> *)
Record CacheItem (T : Type) : Type := mkCacheItem {
  value : T;
  timestamp : Z;
  expiry : Z
}.
Arguments mkCacheItem {T} value timestamp expiry.
Arguments value {T} c.
Arguments timestamp {T} c.
Arguments expiry {T} c.

(** The object returned by [PersistentStorage.get]:
    [{ value, isExpired, timestamp }] *)
Record CacheRead (T : Type) : Type := mkCacheRead {
  r_value : T;
  isExpired : bool;
  r_timestamp : Z
}.
Arguments mkCacheRead {T} r_value isExpired r_timestamp.
Arguments r_value {T} c.
Arguments isExpired {T} c.
Arguments r_timestamp {T} c.

(** What the code takes from its platform. [clock n] is the value of the
    [n]-th call of [Date.now()] (milliseconds). [JSON_stringify item] is the
    text of [{ value, timestamp, expiry }]. [JSON_parse s] is the item that
    [JSON.parse(s)] returns, [None] where it throws; the store reads under
    its prefix what [set] wrote there, so a text that parses is taken to be
    the text of an item. [setItem_ok ls k s] is [false] where
    [localStorage.setItem(k, s)] throws (quota exceeded). *)
Record Platform (T : Type) : Type := mkPlatform {
  clock : nat → Z;
  JSON_stringify : CacheItem T → string;
  JSON_parse : string → option (CacheItem T);
  setItem_ok : gmap string string → string → string → bool
}.
Arguments mkPlatform {T} clock JSON_stringify JSON_parse setItem_ok.
Arguments clock {T} p n.
Arguments JSON_stringify {T} p item.
Arguments JSON_parse {T} p s.
Arguments setItem_ok {T} p ls k s.

Module PersistentStorage.
Section PersistentStorage.
Context {T : Type} (js : Platform T).

Definition prefix : string := "stock_app_cache_".
Definition defaultTTL : Z := 24 * 60 * 60 * 1000.

Definition Date_now : State Browser Z :=
  λ b, (clock js (reads b), mkBrowser (localStorage b) (S (reads b))).

Definition getItem (k : string) : State Browser (option string) :=
  gets (λ b, localStorage b !! k).

Definition removeItem (k : string) : State Browser unit :=
  modify (λ b, mkBrowser (delete k (localStorage b)) (reads b)).

(** [localStorage.setItem(k, s)] inside a [try]: [false] when it throws. *)
Definition setItem (k s : string) : State Browser bool :=
  λ b, if setItem_ok js (localStorage b) k s
       then (true, mkBrowser (<[k := s]> (localStorage b)) (reads b))
       else (false, b).

(** [Object.keys(localStorage)] *)
Definition Object_keys : State Browser (list string) :=
  gets (λ b, (map_to_list (localStorage b)).*1).

Definition clearExpired : State Browser unit :=
  let* now := Date_now in
  let* keys := Object_keys in
  forEach keys (λ key,
    if String.prefix prefix key then
      let* itemStr := getItem key in
      match itemStr with
      | None | Some EmptyString => ret ()
      | Some s =>
          match JSON_parse js s with
          | Some item => if now >? expiry item then removeItem key else ret ()
          | None => ret ()             (* Ignore parse error *)
          end
      end
    else ret ()).

Definition set (key : string) (v : T) (ttl : Z) : State Browser unit :=
  let* now := Date_now in
  let item := mkCacheItem v now (now + ttl) in
  let* stored := setItem (prefix +:+ key) (JSON_stringify js item) in
  if stored then ret () else clearExpired.

Definition get (key : string) : State Browser (option (CacheRead T)) :=
  let* itemStr := getItem (prefix +:+ key) in
  match itemStr with
  | None | Some EmptyString => ret None
  | Some s =>
      match JSON_parse js s with
      | Some item =>
          let* now := Date_now in
          ret (Some (mkCacheRead (value item) (now >? expiry item) (timestamp item)))
      | None => ret None
      end
  end.

Definition remove (key : string) : State Browser unit :=
  removeItem (prefix +:+ key).

Definition clearAll : State Browser unit :=
  let* keys := Object_keys in
  forEach keys (λ key,
    if String.prefix prefix key then removeItem key else ret ()).

End PersistentStorage.
End PersistentStorage.

(** ** The bounded queue (class RequestQueue) *)

Module RequestQueue.
Section RequestQueue.
(** [Task]: the functions handed to [add] (type [Task<T> = () => Promise<T>]);
    [T]: what their promises fulfil with. *)
Context {Task T : Type}.

(** An element of [this.queue]: [{ task, resolve, reject }]. [resolve] and
    [reject] belong to the promise that [add] returned; [handle] names it. *)
Record Item : Type := mkItem {
  task : Task;
  handle : nat
}.

(** The fields of the class. *)
Record t : Type := mk {
  queue : list Item;
  activeCount : Z;
  concurrency : Z
}.

(** The queue together with what its callbacks act on: the promises made by
    [add] and the operations started by [item.task()]. An operation is
    [running] from [item.task()] until its promise settles; it is
    [finishing] from then until its [finally] callback has run. *)
Record Sched : Type := mkSched {
  rq : t;
  promises : nat;                   (* promises made by add so far *)
  invoked : list Item;              (* the calls item.task(), oldest first *)
  running : gset nat;
  finishing : gset nat;
  handles : gmap nat (Settled T)    (* the settled promises of add *)
}.

(** [new RequestQueue(concurrency)] *)
Definition new (concurrency : Z) : Sched :=
  mkSched (mk [] 0 concurrency) 0 [] ∅ ∅ ∅.

Definition processNext : State Sched unit := λ s,
  let q := rq s in
  if (activeCount q >=? concurrency q) || (length (queue q) =? 0)%nat then ((), s)
  else
    match queue q with                                    (* this.queue.shift() *)
    | [] => ((), s)                                       (* if (!item) return *)
    | item :: rest =>
        ((), mkSched (mk rest (activeCount q + 1) (concurrency q))
                     (promises s)
                     (invoked s ++ [item])                (* item.task() *)
                     ({[handle item]} ∪ running s)
                     (finishing s)
                     (handles s))
    end.

(** [new Promise((resolve, reject) => ..)]: the handle of the new promise. *)
Definition new_promise : State Sched nat := λ s,
  (promises s,
   mkSched (rq s) (S (promises s)) (invoked s) (running s) (finishing s) (handles s)).

(** [this.queue.push(item)] *)
Definition push (item : Item) : State Sched unit :=
  modify (λ s, mkSched (mk (queue (rq s) ++ [item]) (activeCount (rq s)) (concurrency (rq s)))
                       (promises s) (invoked s) (running s) (finishing s) (handles s)).

(** [add(task)]: returns the handle of the promise it makes. *)
Definition add (task : Task) : State Sched nat :=
  let* h := new_promise in
  push (mkItem task h) ;;;
  processNext ;;;
  ret h.

(** [.then(item.resolve).catch(item.reject)]: the promise of [item.task()]
    settles with [o], and so does the promise that [add] returned. *)
Definition settle (h : nat) (o : Settled T) : State Sched unit :=
  modify (λ s, mkSched (rq s) (promises s) (invoked s)
                       (running s ∖ {[h]}) ({[h]} ∪ finishing s)
                       (<[h := o]> (handles s))).

(** [.finally(() => { this.activeCount--; this.processNext(); })] *)
Definition finally (h : nat) : State Sched unit :=
  modify (λ s, mkSched (mk (queue (rq s)) (activeCount (rq s) - 1) (concurrency (rq s)))
                       (promises s) (invoked s) (running s) (finishing s ∖ {[h]})
                       (handles s)) ;;;
  processNext.

(** get pendingCount() *)
Definition pendingCount (s : Sched) : nat := length (queue (rq s)).

(** What can happen to a queue: a call of [add], the promise of a running
    operation settling, the [finally] callback of a settled one. *)
Inductive Event : Type :=
  | Add (task : Task)
  | Settle (h : nat) (o : Settled T)
  | Finally (h : nat).

Definition step (ev : Event) (s : Sched) : option Sched :=
  match ev with
  | Add task => Some (add task s).2
  | Settle h o => if decide (h ∈ running s) then Some (settle h o s).2 else None
  | Finally h => if decide (h ∈ finishing s) then Some (finally h s).2 else None
  end.

Fixpoint run (evs : list Event) (s : Sched) : option Sched :=
  match evs with
  | [] => Some s
  | ev :: rest => match step ev s with Some s' => run rest s' | None => None end
  end.

(** The tasks handed to [add] in a trace, in call order, each with the handle
    that [add] gave it. *)
Fixpoint added_from (n : nat) (evs : list Event) : list Item :=
  match evs with
  | [] => []
  | Add task :: rest => mkItem task n :: added_from (S n) rest
  | _ :: rest => added_from n rest
  end.

End RequestQueue.
Arguments Item : clear implicits.
Arguments t : clear implicits.
Arguments Sched : clear implicits.
Arguments Event : clear implicits.
End RequestQueue.

(** ** Async functions *)

(** The promise of a call of an [async] function whose [await]s wait for
    handles of the queue. [Done r]: the promise is settled when the call
    returns. [Await h k]: the function is suspended at [await] on the promise
    [h]; [k o] is the code that runs once [h] has settled with [o].
    [Tick k]: the function awaits a promise that is already settled, so [k]
    runs at a later turn of the microtask queue. *)
#[local] Unset Elimination Schemes.
Inductive Async (W T A : Type) : Type :=
  | Done (r : Settled A)
  | Tick (k : State W (Async W T A))
  | Await (h : nat) (k : Settled T → State W (Async W T A)).
#[local] Set Elimination Schemes.
Arguments Done {W T A} r.
Arguments Tick {W T A} k.
Arguments Await {W T A} h k.

(** [await_ a f]: [const r = await a; f(r)] where [f] also receives a
    rejection (the [catch] block of the caller). *)
Fixpoint await_ {W T A B} (a : Async W T A)
    (f : Settled A → State W (Async W T B)) : Async W T B :=
  match a with
  | Done r => Tick (f r)
  | Tick k => Tick (λ w, let '(a', w') := k w in (await_ a' f, w'))
  | Await h k => Await h (λ o w, let '(a', w') := k o w in (await_ a' f, w'))
  end.

(** ** The cache-aside orchestrator (services/api.ts) *)

Section Orchestrator.
Context {Task T : Type} (js : Platform T).

(** One call of [fetchWithCache], as the call log records it. *)
Record Call : Type := mkCall {
  call_key : string;
  call_fetcher : Task;
  call_forceRefresh : bool
}.

(** [storage] and [apiQueue] are the two singletons of the module; [calls]
    logs the calls of [fetchWithCache], oldest first. *)
Record World : Type := mkWorld {
  browser : Browser;
  apiQueue : RequestQueue.Sched Task T;
  calls : list Call
}.

Definition storage {A} (m : State Browser A) : State World A := λ w,
  let '(a, b) := m (browser w) in (a, mkWorld b (apiQueue w) (calls w)).

Definition queue_ {A} (m : State (RequestQueue.Sched Task T) A) : State World A := λ w,
  let '(a, q) := m (apiQueue w) in (a, mkWorld (browser w) q (calls w)).

Definition log_call (c : Call) : State World unit :=
  modify (λ w, mkWorld (browser w) (apiQueue w) (calls w ++ [c])).

(** The next turn of a suspended call: one that awaits the promise [h] of the
    queue goes on once [h] is settled, with its outcome. *)
Definition resume {A} (a : Async World T A) (w : World) : option (Async World T A * World) :=
  match a with
  | Done _ => None
  | Tick k => Some (k w)
  | Await h k =>
      match RequestQueue.handles (apiQueue w) !! h with
      | Some o => Some (k o w)
      | None => None
      end
  end.

(** The code of [fetchWithCache] after [await apiQueue.add(fetcher)]: the rest
    of the [try] block when the promise is fulfilled, the [catch] block when
    it is rejected. [cached] is the variable the function read at its start. *)
Definition fetchWithCache_resume (key : string) (cached : option (CacheRead T))
    (o : Settled T) : State World (Async World T T) :=
  match o with
  | Fulfilled data =>
      (* 3. *)
      storage (PersistentStorage.set js key data PersistentStorage.defaultTTL) ;;;
      ret (Done (Fulfilled data))
  | Rejected error =>
      (* 4. *)
      match cached with
      | Some c => ret (Done (Fulfilled (r_value c)))
      | None => ret (Done (Rejected error))
      end
  end.

Definition fetchWithCache (key : string) (fetcher : Task) (forceRefresh : bool)
  : State World (Async World T T) :=
  log_call (mkCall key fetcher forceRefresh) ;;;
  (* 1. *)
  let* cached := storage (PersistentStorage.get js key) in
  let through_queue : State World (Async World T T) :=
    (* 2. *)
    let* h := queue_ (RequestQueue.add fetcher) in
    ret (Await h (fetchWithCache_resume key cached)) in
  match cached with
  | Some c =>
      if negb (isExpired c) && negb forceRefresh
      then ret (Done (Fulfilled (r_value c)))
      else through_queue
  | None => through_queue
  end.

End Orchestrator.
Arguments Call : clear implicits.
Arguments World : clear implicits.

(** ** Domain records (types/stock.ts) and derived metrics *)

(** interface Stock; a JavaScript number is a binary64 float. *)
Record Stock : Type := mkStock {
  code : string;
  name : string;
  currentPrice : float;
  predictedPrice1 : float;
  predictedPrice2 : float;
  change1 : float;
  changePercent1 : float;
  change2 : float;
  changePercent2 : float;
  averageChange : float;
  averageChangePercent : float
}.

(** interface StockDetail extends Stock *)
Record StockDetail : Type := mkStockDetail {
  stock : Stock;
  volume : float;
  marketCap : float;
  pe : float;
  eps : float;
  dividend : float;
  industry : string;
  description : string
}.

(** interface BackendStock, with [symbol] already through [String(..)]. *)
Record BackendStock : Type := mkBackendStock {
  symbol : string;
  stock_name : string;
  keywords : list string
}.

Definition mapToFrontendStock (item : BackendStock) : Stock :=
  mkStock (symbol item) (stock_name item) 10 0 0 0 0 0 0 0 0.

(** [Number(x.toFixed(2))] after ECMA-262: [toFixed] writes NaN and the
    infinities by name and a number from 1e21 on in full precision, which
    [Number] reads back unchanged; below that it takes the integer [n] with
    [n / 100] nearest to [|x|] (the larger one on a tie) and writes the sign
    and the digits of [n / 100], which [Number] rounds to the nearest float. *)
Definition Number_toFixed2 (x : float) : float :=
  match Prim2SF x with
  | S754_finite s m e =>
      if (1e21 <=? abs x)%float then x
      else
        let n := if 0 <=? e then Z.pos m * 100 * 2 ^ e
                 else (2 * (Z.pos m * 100) + 2 ^ (- e)) / (2 * 2 ^ (- e)) in
        match n with
        | Z.pos p => SF2Prim (SFdiv prec emax (S754_finite s p 0) (S754_finite false 100 0))
        | _ => if s then (-0)%float else 0%float
        end
  | S754_zero _ => 0%float
  | _ => x
  end.

(** [a !== b] on numbers *)
Definition strict_ne (a b : float) : bool := negb (a =? b)%float.

(** The object that the queued per-stock task of [fetchStocks] returns, from
    the list entry [stock] and the three values parsed from the responses. *)
Definition fetchStocks_withPrices (stock : Stock) (currentPrice price1 price2 : float) : Stock :=
  let change1 := (price1 - currentPrice)%float in
  let change2 := (price2 - currentPrice)%float in
  let averageChange := ((change1 + change2) / 2)%float in
  mkStock (code stock) (name stock)
    currentPrice
    price1
    price2
    change1
    (if strict_ne currentPrice 0 then Number_toFixed2 ((change1 / currentPrice) * 100)%float else 0%float)
    change2
    (if strict_ne currentPrice 0 then Number_toFixed2 ((change2 / currentPrice) * 100)%float else 0%float)
    averageChange
    (if strict_ne currentPrice 0 then Number_toFixed2 ((averageChange / currentPrice) * 100)%float else 0%float).

(** [data.keywords?.[0] || ..]: the empty string is falsy. *)
Definition first_keyword_or (data : BackendStock) (fallback : string) : string :=
  match keywords data with
  | [] | EmptyString :: _ => fallback
  | k :: _ => k
  end.

(** The [stockDetail] object built by the fetcher of [fetchStockDetail]. *)
Definition fetchStockDetail_stockDetail (data : BackendStock)
    (currentPrice price1 price2 : float) : StockDetail :=
  let change1 := (price1 - currentPrice)%float in
  let change2 := (price2 - currentPrice)%float in
  let averageChange := ((change1 + change2) / 2)%float in
  let base := mapToFrontendStock data in
  mkStockDetail
    (mkStock (code base) (name base)
      currentPrice
      price1
      price2
      change1
      (if strict_ne currentPrice 0 then Number_toFixed2 ((change1 / currentPrice) * 100)%float else 0%float)
      change2
      (if strict_ne currentPrice 0 then Number_toFixed2 ((change2 / currentPrice) * 100)%float else 0%float)
      averageChange
      (if strict_ne currentPrice 0 then Number_toFixed2 ((averageChange / currentPrice) * 100)%float else 0%float))
    0 0 0 0 0
    (first_keyword_or data "未知產業")
    ("股票 " +:+ stock_name data +:+ " 的詳細資訊").

(** ** The exported fetch functions (services/api.ts) *)

(** The [fetchLogic] closures that the fetch functions hand to
    [fetchWithCache]: each is named after the function that builds it and
    carries the variables it closes over; [fetchStocks_stockTask] is the
    task that [fetchStocks_fetchLogic] itself queues for each stock of the
    list. What a task does on the network is not modelled; the promise it
    returns settles by a queue event. *)
Inductive Fetcher : Type :=
  | fetchStocks_fetchLogic
  | fetchStocks_stockTask (code : string)
  | fetchStockDetail_fetchLogic (code : string)
  | fetchStockPrediction_fetchLogic (code : string)
  | fetchHistoricalData_fetchLogic (code : string) (days : nat)
  | fetchHistoricalPredictions_fetchLogic (code : string) (days : nat).

#[export] Instance Fetcher_eq_dec : EqDecision Fetcher.
Proof. solve_decision. Defined.

Section Api.
(** [T]: the JSON values that the fetchers resolve with and that the cache
    holds (the [ApiResponse] envelopes); [data_stocks r] is [r.data] read
    as [Stock[]]. *)
Context {T : Type} (js : Platform T) (data_stocks : T → list Stock).

#[local] Abbreviation W := (World Fetcher T).

Definition fetchStockDetail (code : string) : State W (Async W T T) :=
  let cacheKey := "stock_detail_" +:+ code in
  fetchWithCache js cacheKey (fetchStockDetail_fetchLogic code) false.

Definition fetchStockPrediction (code : string) : State W (Async W T T) :=
  let cacheKey := "stock_prediction_" +:+ code in
  fetchWithCache js cacheKey (fetchStockPrediction_fetchLogic code) false.

Definition fetchHistoricalData (code : string) (days : nat) : State W (Async W T T) :=
  let cacheKey := "stock_history_" +:+ code +:+ "_" +:+ pretty days in
  fetchWithCache js cacheKey (fetchHistoricalData_fetchLogic code days) false.

Definition fetchHistoricalPredictions (code : string) (days : nat) : State W (Async W T T) :=
  let cacheKey := "stock_history_pred_" +:+ code +:+ "_" +:+ pretty days in
  fetchWithCache js cacheKey (fetchHistoricalPredictions_fetchLogic code days) false.

(** [storage.get(key)?.isExpired === false] *)
Definition has_fresh (key : string) : State W bool :=
  let* cached := storage (PersistentStorage.get js key) in
  ret (match cached with Some c => negb (isExpired c) | None => false end).

(** [f(..).catch(() => { })]: the call is made; its promise, its value and
    its error are dropped. *)
Definition fire_and_forget {A} (call : State W (Async W T A)) : State W unit :=
  call ;;; ret ().

Definition prefetchAllStocksDetails (stocks : list Stock) : State W unit :=
  forEach stocks (λ stock,
    let detailKey := "stock_detail_" +:+ code stock in
    let historyKey := "stock_history_" +:+ code stock +:+ "_30" in
    let predictionKey := "stock_prediction_" +:+ code stock in
    let* hasDetail := has_fresh detailKey in
    let* hasHistory := has_fresh historyKey in
    let* hasPrediction := has_fresh predictionKey in
    (if negb hasDetail
     then fire_and_forget (fetchStockDetail (code stock)) else ret ()) ;;;
    (if negb hasHistory
     then fire_and_forget (fetchHistoricalData (code stock) 30) else ret ()) ;;;
    (if negb hasPrediction
     then fire_and_forget (fetchStockPrediction (code stock)) else ret ())).

(** The object thrown by the [catch] block of [fetchStocks]:
    [error instanceof Error ? error.message : ..] is its message. *)
Definition fetchStocks_error (error : Reason) : Reason :=
  ApiError "FETCH_STOCKS_ERROR"
    (match error with Error message => message | _ => "獲取股票列表失敗" end)
    error.

Definition fetchStocks : State W (Async W T T) :=
  let cacheKey := "stocks_list" in
  let* a := fetchWithCache js cacheKey fetchStocks_fetchLogic false in
  ret (await_ a (λ r,
    match r with
    | Fulfilled result =>
        prefetchAllStocksDetails (data_stocks result) ;;;
        ret (Done (Fulfilled result))
    | Rejected error => ret (Done (Rejected (fetchStocks_error error)))
    end)).

Definition refreshStocksData : State W (Async W T T) :=
  storage PersistentStorage.clearAll ;;;
  fetchStocks.

End Api.

(** ** Filtering the list (fetchFilteredStocks) *)

(** interface StockFilterParams *)
Record StockFilterParams : Type := mkStockFilterParams {
  upTrendEnabled : bool;
  downTrendEnabled : bool;
  upTrendThreshold : float;
  downTrendThreshold : float
}.

(** interface ApiResponse<T>, as the object literals of the fetch functions
    build it (without the optional [message]). *)
Module ApiResponse.
Record t (D : Type) : Type := mk {
  success : bool;
  data : D;
  timestamp : string
}.
Arguments mk {D} success data timestamp.
Arguments success {D} _.
Arguments data {D} _.
Arguments timestamp {D} _.
End ApiResponse.

(** The callback of [filtered.filter(stock => ..)]; [a >= b] on numbers is
    [b <= a]. *)
Definition trend_match (filters : StockFilterParams) (stock : Stock) : bool :=
  let method1Match :=
    (upTrendEnabled filters && (upTrendThreshold filters <=? changePercent1 stock)%float)
    || (downTrendEnabled filters && (changePercent1 stock <=? downTrendThreshold filters)%float) in
  let method2Match :=
    (upTrendEnabled filters && (upTrendThreshold filters <=? changePercent2 stock)%float)
    || (downTrendEnabled filters && (changePercent2 stock <=? downTrendThreshold filters)%float) in
  method1Match || method2Match.

(** The variable [filtered] of [fetchFilteredStocks] when the response is
    built, from [response.data]. *)
Definition fetchFilteredStocks_filtered (filters : StockFilterParams)
    (stocks : list Stock) : list Stock :=
  if upTrendEnabled filters || downTrendEnabled filters
  then List.filter (trend_match filters) stocks
  else stocks.

Section Filtered.
(** [toISOString t]: [new Date(t).toISOString()]; [new Date()] reads the clock
    as [Date.now()] does. *)
Context {T : Type} (js : Platform T) (data_stocks : T → list Stock)
        (toISOString : Z → string).

(** The function has no [try]: a rejection of [fetchStocks] is its own. *)
Definition fetchFilteredStocks (filters : StockFilterParams)
  : State (World Fetcher T) (Async (World Fetcher T) T (ApiResponse.t (list Stock))) :=
  let* a := fetchStocks js data_stocks in
  ret (await_ a (λ r,
    match r with
    | Fulfilled response =>
        let filtered := fetchFilteredStocks_filtered filters (data_stocks response) in
        let* now := storage (PersistentStorage.Date_now js) in
        ret (Done (Fulfilled (ApiResponse.mk true filtered (toISOString now))))
    | Rejected error => ret (Done (Rejected error))
    end)).

End Filtered.

(** * Vocabulary of the properties *)

Section QueueInvariant.
Context {Task T : Type}.
Import RequestQueue.

Implicit Types (s : RequestQueue.Sched Task T) (evs : list (RequestQueue.Event Task T)).

(** What holds of every state that a trace [evs] leads to from a new queue
    of capacity [c]. *)
Record inv (c : Z) evs s : Prop := mkInv {
  inv_conc : concurrency (rq s) = c;
  inv_count :
    activeCount (rq s) = Z.of_nat (size (running s)) + Z.of_nat (size (finishing s));
  inv_disj : running s ## finishing s;
  inv_started : ∀ h, h ∈ running s ∪ finishing s → h ∈ (handle <$> invoked s);
  inv_fifo : invoked s ++ queue (rq s) = added_from 0 evs;
  inv_promises : promises s = length (added_from 0 evs);
  inv_cap : 0 ≤ c → activeCount (rq s) ≤ c;
  inv_settled : ∀ h o, handles s !! h = Some o ↔ Settle h o ∈ evs;
  inv_settled_done :
    ∀ h, is_Some (handles s !! h) → (h ∉ running s) ∧ h ∈ (handle <$> invoked s)
}.

(** What else holds of every reachable state: no task waits while a slot is
    free, and a started operation is running until its handle is settled. *)
Record busy (s : RequestQueue.Sched Task T) : Prop := mkBusy {
  busy_full : queue (rq s) = [] ∨ concurrency (rq s) ≤ activeCount (rq s);
  busy_started :
    ∀ h, h ∈ (handle <$> invoked s) → h ∈ running s ∨ is_Some (handles s !! h)
}.


End QueueInvariant.

Section Turns.
Context {Task T A : Type}.

(** The first [n] turns of a suspended call, as far as they can be taken. *)
Fixpoint turns (n : nat) (a : Async (World Task T) T A) (w : World Task T)
    : Async (World Task T) T A * World Task T :=
  match n with
  | O => (a, w)
  | S n' =>
      match resume a w with
      | Some (a', w') => turns n' a' w'
      | None => (a, w)
      end
  end.

End Turns.

Section StoreReads.
Context {T : Type} (js : Platform T).

(** Reading keys one after the other. *)
Definition gets_all (keys : list string) (b : Browser) : Browser :=
  foldl (λ b key, (PersistentStorage.get js key b).2) b keys.

(** Whether [key] has an entry that is not expired at time [now]. *)
Definition fresh_at (ls : gmap string string) (now : Z) (key : string) : bool :=
  match ls !! (PersistentStorage.prefix +:+ key) with
  | None | Some EmptyString => false
  | Some s =>
      match JSON_parse js s with
      | Some item => negb (now >? expiry item)
      | None => false
      end
  end.

(** Whether [s] is the text of an item that is expired at time [now]. *)
Definition stale_text (now : Z) (s : string) : bool :=
  match s with
  | EmptyString => false
  | _ =>
      match JSON_parse js s with
      | Some item => now >? expiry item
      | None => false
      end
  end.

End StoreReads.

Section PrefetchPass.
Context {T : Type}.

(** The calls of [fetchWithCache] that one stock gives rise to when [F]
    tells which keys have an entry that is not expired: none for such a
    key, one for each of the others. *)
Definition prefetch_calls (F : string → bool) (stock : Stock) : list (Call Fetcher) :=
  let detailKey := "stock_detail_" +:+ code stock in
  let historyKey := "stock_history_" +:+ code stock +:+ "_30" in
  let predictionKey := "stock_prediction_" +:+ code stock in
  (if F detailKey then []
   else [mkCall detailKey (fetchStockDetail_fetchLogic (code stock)) false]) ++
  (if F historyKey then []
   else [mkCall historyKey (fetchHistoricalData_fetchLogic (code stock) 30) false]) ++
  (if F predictionKey then []
   else [mkCall predictionKey (fetchStockPrediction_fetchLogic (code stock)) false]).


Definition is_detail_call (c : Call Fetcher) : bool :=
  match call_fetcher c with fetchStockDetail_fetchLogic _ => true | _ => false end.



End PrefetchPass.

Section CacheKeys.
Context {T A : Type}.

(** The cache key of a fetch function: the key of the last call of
    [fetchWithCache] in the log after [call] has run. *)
Definition cache_key_of (call : State (World Fetcher T) A) (w : World Fetcher T)
    : option string :=
  call_key <$> last (calls (call w).2).

End CacheKeys.

Section Settling.
Context {Task T A : Type}.

(** A suspended call and its world one turn later. *)
Definition next_turn (p : Async (World Task T) T A * World Task T)
    : Async (World Task T) T A * World Task T :=
  turns 1 p.1 p.2.

End Settling.

Section NestedUse.
Context {Task T : Type}.
Import RequestQueue.

(** [q'] comes from [q] by at most [n] calls of [add] and nothing else. *)
Definition adds_only (n : nat) (q q' : RequestQueue.Sched Task T) : Prop :=
  ∃ tasks : list Task,
    (length tasks ≤ n)%nat ∧ run (Add <$> tasks) q = Some q'.

(** Operations that wait for other tasks of the same queue, as the list
    fetch of [fetchStocks] does: it hands one task for each stock to
    [apiQueue.add] and returns after [Promise.all] of their promises.
    [waits h] are the handles that the operation of handle [h] awaits; its
    promise does not settle before they all have. *)
Definition step_nested (waits : nat → list nat)
    (ev : RequestQueue.Event Task T) (s : RequestQueue.Sched Task T)
    : option (RequestQueue.Sched Task T) :=
  match ev with
  | Settle h _ =>
      if forallb (λ h', bool_decide (is_Some (handles s !! h'))) (waits h)
      then step ev s else None
  | _ => step ev s
  end.

Fixpoint run_nested (waits : nat → list nat)
    (evs : list (RequestQueue.Event Task T)) (s : RequestQueue.Sched Task T)
    : option (RequestQueue.Sched Task T) :=
  match evs with
  | [] => Some s
  | ev :: rest =>
      match step_nested waits ev s with
      | Some s' => run_nested waits rest s'
      | None => None
      end
  end.

End NestedUse.

(** A platform to run the code on: the cached values are integers, an item is
    written as its three numbers in decimal with commas between them,
    [localStorage] takes every write. *)
Module Demo.

Definition digit (a : ascii) : option Z :=
  let n := Z.of_N (N_of_ascii a) in
  if (48 <=? n) && (n <=? 57) then Some (n - 48) else None.

Fixpoint read_digits (s : string) (acc : Z) : option Z :=
  match s with
  | EmptyString => Some acc
  | String a rest =>
      match digit a with
      | Some d => read_digits rest (10 * acc + d)
      | None => None
      end
  end.

Definition read_Z (s : string) : option Z :=
  match s with
  | EmptyString => None
  | String "-"%char EmptyString => None
  | String "-"%char rest => Z.opp <$> read_digits rest 0
  | _ => read_digits s 0
  end.

Fixpoint fields (s : string) : list string :=
  match s with
  | EmptyString => [EmptyString]
  | String ","%char rest => EmptyString :: fields rest
  | String a rest =>
      match fields rest with
      | f :: fs => String a f :: fs
      | [] => [String a EmptyString]
      end
  end.

Definition stringify (item : CacheItem Z) : string :=
  pretty (value item) +:+ "," +:+ pretty (timestamp item) +:+ "," +:+ pretty (expiry item).

Definition parse (s : string) : option (CacheItem Z) :=
  match fields s with
  | [a; b; c] =>
      match read_Z a, read_Z b, read_Z c with
      | Some v, Some t, Some e => Some (mkCacheItem v t e)
      | _, _, _ => None
      end
  | _ => None
  end.

Definition platform (clock : nat → Z) : Platform Z :=
  mkPlatform clock stringify parse (λ _ _ _, true).

(** The same platform with a [localStorage] that is full: every write throws. *)
Definition full_platform (clock : nat → Z) : Platform Z :=
  mkPlatform clock stringify parse (λ _ _ _, false).

(** The clock that shows the given readings, then stays at the last. *)
Definition readings (ts : list Z) : nat → Z :=
  λ n, nth n ts (List.last ts 0).

Definition fresh_browser : Browser := mkBrowser ∅ 0.

Definition fresh_world {Task} (concurrency : Z) : World Task Z :=
  mkWorld fresh_browser (RequestQueue.new concurrency) [].

Definition stock_of (code : string) : Stock :=
  mkStock code code 10 0 0 0 0 0 0 0 0.

End Demo.

(** * Properties *)

(** ** The bounded queue *)

Section QueueFacts.
Context {Task T : Type}.
Import RequestQueue.

#[local] Abbreviation Sched := (RequestQueue.Sched Task T).
#[local] Abbreviation Event := (RequestQueue.Event Task T).
#[local] Abbreviation Item := (RequestQueue.Item Task).

Implicit Types (s : Sched) (evs : list Event) (ev : Event) (h : nat).

(** [processNext] either returns at once or starts the head of the queue. *)
Lemma processNext_cases s :
  (processNext s).2 = s ∧
    (concurrency (rq s) ≤ activeCount (rq s) ∨ queue (rq s) = [])
  ∨ ∃ item rest,
      queue (rq s) = item :: rest ∧
      activeCount (rq s) < concurrency (rq s) ∧
      (processNext s).2 =
        mkSched (mk rest (activeCount (rq s) + 1) (concurrency (rq s)))
                (promises s) (invoked s ++ [item])
                ({[handle item]} ∪ running s) (finishing s) (handles s).
Proof.
  unfold processNext.
  destruct (Z.geb_spec (activeCount (rq s)) (concurrency (rq s))) as [Hge|Hlt]; simpl.
  - left. split; [done | left; lia].
  - destruct (queue (rq s)) as [|item rest] eqn:Hq; simpl.
    + left. split; [done | by right].
    + right. exists item, rest. split_and!; [done | lia | done].
Qed.

Lemma run_snoc evs ev s :
  run (evs ++ [ev]) s = run evs s ≫= step ev.
Proof.
  revert s. induction evs as [|e evs IH]; intros s; simpl.
  - by destruct (step ev s).
  - destruct (step e s); [apply IH | done].
Qed.

Lemma run_app evs1 evs2 s :
  run (evs1 ++ evs2) s = run evs1 s ≫= run evs2.
Proof.
  revert s. induction evs1 as [|e evs IH]; intros s; simpl; [done|].
  destruct (step e s); [apply IH | done].
Qed.

Lemma added_from_snoc n evs ev :
  added_from n (evs ++ [ev]) =
  added_from n evs ++
    match ev with
    | Add task => [mkItem task (n + length (added_from n evs))]
    | _ => []
    end.
Proof.
  revert n. induction evs as [|e evs IH]; intros n; simpl.
  - destruct ev; simpl; [by rewrite Nat.add_0_r | done | done].
  - destruct e; simpl; rewrite IH; [|done|done].
    destruct ev; simpl; [|done|done].
    by rewrite Nat.add_succ_r.
Qed.

Lemma added_from_handles n evs :
  handle <$> added_from n evs = seq n (length (added_from n evs)).
Proof.
  revert n. induction evs as [|e evs IH]; intros n; simpl; [done|].
  destruct e; simpl; [by rewrite IH | apply IH | apply IH].
Qed.

Lemma inv_new c : inv (Task:=Task) (T:=T) c [] (new c).
Proof.
  split; simpl; try done.
  - intros h o. rewrite lookup_empty. split; [done | by intros ?%elem_of_nil].
  - intros h [o Ho]. by rewrite lookup_empty in Ho.
Qed.

(** No handle occurs twice among the started and the waiting items. *)
Lemma inv_NoDup c evs s :
  inv c evs s → NoDup (handle <$> (invoked s ++ queue (rq s))).
Proof.
  intros I. rewrite (inv_fifo _ _ _ I), added_from_handles. apply NoDup_seq.
Qed.

Lemma inv_head_fresh c evs s item rest :
  inv c evs s → queue (rq s) = item :: rest →
  handle item ∉ (handle <$> invoked s).
Proof.
  intros I Hq Hin. pose proof (inv_NoDup _ _ _ I) as ND.
  rewrite Hq, fmap_app, fmap_cons in ND.
  apply NoDup_app in ND as (_ & ND & _).
  apply (ND _ Hin). left.
Qed.

Lemma inv_processNext c evs s :
  inv c evs s → inv c evs (processNext s).2.
Proof.
  intros I.
  destruct (processNext_cases s) as [[-> _]|(item & rest & Hq & Hlt & ->)]; [done|].
  pose proof (inv_head_fresh _ _ _ _ _ I Hq) as Hfresh.
  assert (handle item ∉ running s ∪ finishing s) as Hidle
    by (intros Hin; by apply Hfresh, (inv_started _ _ _ I)).
  destruct I as [Hc Hn Hd Hs Hf Hp Hcap Hset Hdone].
  split; simpl.
  - done.
  - rewrite size_union by set_solver. rewrite size_singleton. lia.
  - set_solver.
  - intros h Hh. rewrite fmap_app. simpl. set_unfold in Hh. set_unfold.
    destruct Hh as [[->|Hh]|Hh]; [by right; left | left | left]; apply Hs; set_solver.
  - rewrite <- Hf, Hq. by rewrite <- app_assoc.
  - done.
  - intros Hc0. rewrite Hc in Hlt. lia.
  - done.
  - intros h Hh. destruct (Hdone h Hh) as [Hnr Hinv]. split.
    + intros [->%elem_of_singleton|?]%elem_of_union; [by apply Hfresh | done].
    + rewrite fmap_app. set_solver.
Qed.

Lemma inv_step c evs s ev s' :
  inv c evs s → step ev s = Some s' → inv c (evs ++ [ev]) s'.
Proof.
  intros I Hstep. destruct ev as [task|h o|h]; simpl in Hstep.
  - (* add *)
    injection Hstep as <-. unfold add, new_promise, push, bind, modify, ret. simpl.
    destruct (processNext _) as [[] s1] eqn:Hpn. simpl.
    change s1 with (((), s1).2). rewrite <- Hpn. apply inv_processNext.
    destruct I as [Hc Hn Hd Hs Hf Hp Hcap Hset Hdone].
    split; simpl; try done.
    + rewrite added_from_snoc, <- Hf, Hp, <- Hf. by rewrite <- app_assoc.
    + rewrite added_from_snoc, length_app. simpl. lia.
    + intros h o. rewrite Hset, elem_of_app, list_elem_of_singleton. naive_solver.
  - (* the operation settles *)
    destruct (decide (h ∈ running s)) as [Hrun|]; [|done].
    injection Hstep as <-. unfold settle, modify. simpl.
    destruct I as [Hc Hn Hd Hs Hf Hp Hcap Hset Hdone].
    assert (h ∉ finishing s) as Hnf by set_solver.
    split; simpl; try done.
    + rewrite size_difference by set_solver.
      rewrite size_union by set_solver. rewrite size_singleton.
      assert (size (running s) ≠ 0%nat) by (intros ?%size_empty_inv; set_solver).
      lia.
    + set_solver.
    + intros h' Hh'. apply Hs. set_unfold. naive_solver.
    + by rewrite added_from_snoc, app_nil_r.
    + by rewrite added_from_snoc, app_nil_r.
    + intros h' o'. rewrite elem_of_app, list_elem_of_singleton.
      destruct (decide (h' = h)) as [->|Hne].
      * rewrite lookup_insert_eq. split.
        -- intros [= ->]. by right.
        -- intros [Hin|[= ->]]; [|done].
           apply Hset in Hin. destruct (Hdone h) as [Hnr _]; [by eexists | done].
      * rewrite lookup_insert_ne by done. rewrite Hset. naive_solver.
    + intros h' Hh'. destruct (decide (h' = h)) as [->|Hne].
      * split; [set_solver | apply Hs; set_solver].
      * rewrite lookup_insert_ne in Hh' by done.
        destruct (Hdone h' Hh'). split; [set_solver | done].
  - (* the finally callback *)
    destruct (decide (h ∈ finishing s)) as [Hfin|]; [|done].
    injection Hstep as <-. unfold finally, bind, modify.
    destruct (processNext _) as [[] s1] eqn:Hpn. simpl.
    change s1 with (((), s1).2). rewrite <- Hpn. apply inv_processNext.
    destruct I as [Hc Hn Hd Hs Hf Hp Hcap Hset Hdone].
    split; simpl; try done.
    + rewrite size_difference by set_solver. rewrite size_singleton.
      assert (size (finishing s) ≠ 0%nat) by (intros ?%size_empty_inv; set_solver).
      lia.
    + set_solver.
    + intros h' Hh'. apply Hs. set_solver.
    + by rewrite added_from_snoc, app_nil_r.
    + by rewrite added_from_snoc, app_nil_r.
    + intros Hc0. specialize (Hcap Hc0). lia.
    + intros h' o'. rewrite Hset, elem_of_app, list_elem_of_singleton. naive_solver.
Qed.

(** Every state that a trace reaches from a new queue satisfies [inv]. *)
Lemma run_inv c evs s :
  run evs (new c) = Some s → inv c evs s.
Proof.
  revert s. induction evs as [|ev evs IH] using rev_ind; intros s Hrun.
  - injection Hrun as <-. apply inv_new.
  - rewrite run_snoc in Hrun.
    destruct (run evs (new c)) as [s0|] eqn:H0; [|done]. simpl in Hrun.
    by eapply inv_step; [apply IH|].
Qed.

Lemma step_invoked_prefix ev s s' :
  step ev s = Some s' → invoked s `prefix_of` invoked s'.
Proof.
  assert (∀ s0, invoked s0 `prefix_of` invoked (processNext s0).2) as Hpn.
  { intros s0. destruct (processNext_cases s0) as [[-> _]|(item & rest & _ & _ & ->)];
      [done | by apply prefix_app_r]. }
  destruct ev as [task|h o|h]; simpl.
  - intros [= <-]. unfold add, new_promise, push, bind, modify, ret.
    destruct (processNext _) as [[] s1] eqn:E. simpl.
    change s1 with (((), s1).2). rewrite <- E. apply (Hpn (mkSched _ _ _ _ _ _)).
  - destruct (decide _); [|done]. by intros [= <-].
  - destruct (decide _); [|done]. intros [= <-]. unfold finally, bind, modify.
    destruct (processNext _) as [[] s1] eqn:E. simpl.
    change s1 with (((), s1).2). rewrite <- E. apply (Hpn (mkSched _ _ _ _ _ _)).
Qed.

Lemma run_invoked_prefix evs s s' :
  run evs s = Some s' → invoked s `prefix_of` invoked s'.
Proof.
  revert s. induction evs as [|ev evs IH]; intros s; simpl.
  - by intros [= <-].
  - destruct (step ev s) as [s1|] eqn:E; [|done]. intros Hrun.
    etrans; [by eapply step_invoked_prefix | by apply IH].
Qed.

(** With room for all of them, tasks added one after the other start at
    once, in the order of the calls. *)
Lemma run_adds_uncontended c (tasks : list Task) :
  Z.of_nat (length tasks) ≤ c →
  ∃ s, run (Add <$> tasks) (new c) = Some s ∧
       task <$> invoked s = tasks ∧
       queue (rq s) = [] ∧
       activeCount (rq s) = Z.of_nat (length tasks) ∧
       concurrency (rq s) = c.
Proof.
  induction tasks as [|t tasks IH] using rev_ind; intros Hlen.
  - by exists (new c).
  - rewrite length_app in Hlen. simpl in Hlen.
    destruct IH as (s & Hrun & Hts & Hq & Hn & Hc); [lia|].
    rewrite fmap_app. change (Add <$> [t]) with [Add (T:=T) t].
    rewrite run_snoc, Hrun. simpl.
    eexists. split; [done|].
    unfold add, new_promise, push, bind, modify, ret, processNext. simpl. rewrite Hq, Hn, Hc. simpl.
    destruct (Z.geb_spec (Z.of_nat (length tasks)) c) as [|_]; [lia|]. simpl.
    rewrite fmap_app, Hts, length_app. simpl. split_and!; [done | done | lia | done].
Qed.

End QueueFacts.

Section QueueProperties.
Context {Task T : Type}.
Import RequestQueue.

Implicit Types (s : RequestQueue.Sched Task T) (evs : list (RequestQueue.Event Task T)).

(** C3. At every point of every sequence of [add] calls and task completions
    on a queue of capacity [c >= 0], [0 <= activeCount <= capacity]:
    [activeCount] counts the operations that are running or whose [finally]
    callback is still to come, so however many tasks were added, at most
    [c] operations are running. *)
Theorem queue_active_bounded c (pre post : list (RequestQueue.Event Task T)) s :
  0 ≤ c →
  run (pre ++ post) (new c) = Some s →
  ∃ s1, run pre (new c) = Some s1 ∧
        concurrency (rq s1) = c ∧
        0 ≤ activeCount (rq s1) ≤ concurrency (rq s1) ∧
        activeCount (rq s1)
          = Z.of_nat (size (running s1)) + Z.of_nat (size (finishing s1)) ∧
        Z.of_nat (size (running s1)) ≤ c.
Proof.
  intros Hc Hrun. rewrite run_app in Hrun.
  destruct (run pre (new c)) as [s1|] eqn:Hpre; [|done].
  exists s1. split; [done|].
  destruct (run_inv _ _ _ Hpre) as [Hconc Hn _ _ _ _ Hcap _ _].
  specialize (Hcap Hc). rewrite Hconc. lia.
Qed.

(** C4. Admission is first in, first out: at every point the log of started
    tasks followed by the waiting queue is the sequence of the [add] calls,
    so every started task was added before every waiting one, and the log
    only grows at its end; tasks added one after the other with room for
    all of them are started in the order of the calls. *)
Theorem queue_fifo c evs s :
  run evs (new c) = Some s →
  invoked s ++ queue (rq s) = added_from 0 evs ∧
  (∀ x y, x ∈ invoked s → y ∈ queue (rq s) → (handle x < handle y)%nat) ∧
  (∀ pre post s1, evs = pre ++ post → run pre (new c) = Some s1 →
     invoked s1 `prefix_of` invoked s) ∧
  (∀ tasks : list Task, Z.of_nat (length tasks) ≤ c →
     ∃ s', run (Add <$> tasks) (new c) = Some s' ∧
           task <$> invoked s' = tasks ∧ queue (rq s') = []).
Proof.
  intros Hrun. pose proof (run_inv _ _ _ Hrun) as I.
  split_and!.
  - apply (inv_fifo _ _ _ I).
  - intros x y [i Hi]%list_elem_of_lookup [j Hj]%list_elem_of_lookup.
    pose proof (inv_fifo _ _ _ I) as Hf.
    pose proof (added_from_handles (Task:=Task) (T:=T) 0 evs) as Hh.
    rewrite <- Hf in Hh.
    assert ((invoked s ++ queue (rq s)) !! i = Some x) as Hx
      by (by apply lookup_app_l_Some).
    assert ((invoked s ++ queue (rq s)) !! (length (invoked s) + j)%nat = Some y) as Hy
      by (by rewrite lookup_app_r, Nat.add_sub' by lia).
    assert (∀ k z, (invoked s ++ queue (rq s)) !! k = Some z → handle z = k) as Hk.
    { intros k z Hz.
      assert ((handle <$> (invoked s ++ queue (rq s))) !! k = Some (handle z)) as Hz'
        by (by rewrite list_lookup_fmap, Hz).
      rewrite Hh in Hz'. apply lookup_seq in Hz'. lia. }
    rewrite (Hk _ _ Hx), (Hk _ _ Hy).
    apply lookup_lt_Some in Hi. lia.
  - intros pre post s1 -> Hpre. rewrite run_app, Hpre in Hrun.
    by eapply run_invoked_prefix.
  - intros tasks Hlen.
    destruct (run_adds_uncontended (T:=T) c tasks Hlen) as (s' & ? & ? & ? & _).
    by exists s'.
Qed.

(** C5. A rejecting operation rejects its own handle with its own reason
    and changes no other handle; in every trace each handle is settled
    exactly as its own operation settled; whatever the outcome, the
    operation then awaits its [finally] callback, which gives the slot back
    ([activeCount] goes down by one) before the next waiting task, if any,
    takes it. *)
Theorem queue_failure_isolated c evs s :
  run evs (new c) = Some s →
  (∀ h o, handles s !! h = Some o ↔ Settle h o ∈ evs) ∧
  (∀ h e, h ∈ running s →
     ∃ s1, step (Settle h (Rejected e)) s = Some s1 ∧
           handles s1 !! h = Some (Rejected e) ∧
           (∀ h', h' ≠ h → handles s1 !! h' = handles s !! h') ∧
           rq s1 = rq s ∧ invoked s1 = invoked s) ∧
  (∀ h o, h ∈ running s →
     ∃ s1, step (Settle h o) s = Some s1 ∧ h ∈ finishing s1 ∧ rq s1 = rq s) ∧
  (∀ h, h ∈ finishing s →
     ∃ s2, step (Finally h) s = Some s2 ∧
           (length (invoked s2) - length (invoked s) ≤ 1)%nat ∧
           activeCount (rq s2)
             = activeCount (rq s) - 1
               + Z.of_nat (length (invoked s2) - length (invoked s))).
Proof.
  intros Hrun. pose proof (run_inv _ _ _ Hrun) as I.
  split_and!.
  - apply (inv_settled _ _ _ I).
  - intros h e Hh. eexists. simpl. rewrite decide_True by done.
    split; [done|]. simpl. split_and!; [apply lookup_insert_eq | | done | done].
    intros h' Hne. by apply lookup_insert_ne.
  - intros h o Hh. eexists. simpl. rewrite decide_True by done.
    split; [done|]. simpl. split; [set_solver | done].
  - intros h Hh. eexists. simpl. rewrite decide_True by done.
    split; [done|]. unfold finally, bind, modify.
    destruct (processNext _) as [[] s2] eqn:E. simpl.
    change s2 with (((), s2).2). rewrite <- E.
    match goal with |- context [processNext ?s0] =>
      destruct (processNext_cases s0) as [[-> _]|(item & rest & _ & _ & ->)] end; simpl.
    + rewrite Nat.sub_diag. split; [lia|]. simpl. lia.
    + rewrite length_app. simpl. split; [lia|].
      replace (length (invoked s) + 1 - length (invoked s))%nat with 1%nat by lia. lia.
Qed.

End QueueProperties.

(** ** The cache store *)

Section StorageFacts.
Context {T : Type} (js : Platform T).

Implicit Types (b : Browser) (key s : string) (item : CacheItem T).

Lemma prefix_key key :
  String.prefix PersistentStorage.prefix (PersistentStorage.prefix +:+ key) = true.
Proof. simpl. by destruct key. Qed.

(** [get] does not write. *)
Lemma get_localStorage key b :
  localStorage (PersistentStorage.get js key b).2 = localStorage b.
Proof.
  unfold PersistentStorage.get, PersistentStorage.getItem, bind, gets, ret.
  destruct (localStorage b !! _) as [[|a s]|]; [done| |done].
  by destruct (JSON_parse js _).
Qed.


(** A parseable entry is returned with its value, whatever its age. *)
Lemma get_found key b s item :
  localStorage b !! (PersistentStorage.prefix +:+ key) = Some s →
  s ≠ "" →
  JSON_parse js s = Some item →
  PersistentStorage.get js key b =
    (Some (mkCacheRead (value item) (clock js (reads b) >? expiry item) (timestamp item)),
     mkBrowser (localStorage b) (S (reads b))).
Proof.
  intros Hs Hne Hp.
  unfold PersistentStorage.get, PersistentStorage.getItem, bind, gets, ret.
  rewrite Hs. destruct s as [|a s]; [done|]. by rewrite Hp.
Qed.

Lemma get_absent key b :
  localStorage b !! (PersistentStorage.prefix +:+ key) = None →
  PersistentStorage.get js key b = (None, b).
Proof.
  intros Hs.
  unfold PersistentStorage.get, PersistentStorage.getItem, bind, gets, ret.
  by rewrite Hs.
Qed.

(** A write that [localStorage] accepts. *)
Lemma set_stored key (v : T) ttl b :
  let now := clock js (reads b) in
  let text := JSON_stringify js (mkCacheItem v now (now + ttl)) in
  setItem_ok js (localStorage b) (PersistentStorage.prefix +:+ key) text = true →
  PersistentStorage.set js key v ttl b =
    ((), mkBrowser (<[PersistentStorage.prefix +:+ key := text]> (localStorage b))
                   (S (reads b))).
Proof.
  intros now text Hok.
  unfold PersistentStorage.set, PersistentStorage.setItem, PersistentStorage.Date_now,
    bind, ret.
  simpl. fold now. fold text. by rewrite Hok.
Qed.

Lemma gets_all_localStorage keys b :
  localStorage (gets_all js keys b) = localStorage b.
Proof.
  unfold gets_all. revert b. induction keys as [|k keys IH]; intros b; simpl; [done|].
  rewrite IH. apply get_localStorage.
Qed.

End StorageFacts.

Section StorageProperties.
Context {T : Type} (js : Platform T).


(** C7. An entry whose expiry the clock has passed is still returned by
    [get], with its value and [isExpired = true]; [get] leaves [localStorage]
    as it was, so the entry is returned again by every later [get],
    whatever was read in between. The expiry of the entry that [set] writes
    is [storedAt + ttl]. *)
Theorem get_expired_still_readable (key s : string) (item : CacheItem T)
    (between : list string) (b : Browser) :
  let b' := gets_all js between b in
  localStorage b !! (PersistentStorage.prefix +:+ key) = Some s →
  s ≠ "" →
  JSON_parse js s = Some item →
  expiry item < clock js (reads b') →
  (PersistentStorage.get js key b').1
    = Some (mkCacheRead (value item) true (timestamp item)) ∧
  localStorage (PersistentStorage.get js key b').2 = localStorage b ∧
  (∀ key0 b0, localStorage (PersistentStorage.get js key0 b0).2 = localStorage b0) ∧
  (∀ key0 (v : T) ttl b0,
     let storedAt := clock js (reads b0) in
     let text := JSON_stringify js (mkCacheItem v storedAt (storedAt + ttl)) in
     setItem_ok js (localStorage b0) (PersistentStorage.prefix +:+ key0) text = true →
     localStorage (PersistentStorage.set js key0 v ttl b0).2
       !! (PersistentStorage.prefix +:+ key0) = Some text).
Proof.
  intros b' Hs Hne Hparse Hclock.
  assert (localStorage b' = localStorage b) as Hsame by apply gets_all_localStorage.
  split_and!.
  - erewrite get_found; [|by rewrite Hsame|done|done]. simpl.
    rewrite Z.gtb_ltb. by destruct (Z.ltb_spec (expiry item) (clock js (reads b'))); [|lia].
  - by rewrite get_localStorage.
  - intros. apply get_localStorage.
  - intros key0 v ttl b0 storedAt text Hok. rewrite set_stored by done.
    apply lookup_insert_eq.
Qed.

End StorageProperties.

(** ** The orchestrator *)

Section OrchestratorFacts.
Context {Task T : Type} (js : Platform T).
Import RequestQueue.

Implicit Types (w : World Task T) (q : RequestQueue.Sched Task T).

(** A method of [storage] acts on the browser only. *)
Lemma storage_eq {A} (m : State Browser A) w :
  storage m w = ((m (browser w)).1, mkWorld (m (browser w)).2 (apiQueue w) (calls w)).
Proof. unfold storage. by destruct (m (browser w)). Qed.

(** [add] makes one promise and puts one item behind all the others. *)
Lemma add_spec (task : Task) q :
  (add task q).1 = promises q ∧
  promises (add task q).2 = S (promises q) ∧
  invoked (add task q).2 ++ queue (rq (add task q).2)
    = (invoked q ++ queue (rq q)) ++ [mkItem task (promises q)] ∧
  handles (add task q).2 = handles q.
Proof.
  unfold add, new_promise, push, bind, modify, ret.
  destruct (processNext _) as [[] q1] eqn:E. simpl.
  change q1 with (((), q1).2). rewrite <- E.
  match goal with |- context [processNext ?s0] =>
    destruct (processNext_cases s0) as [[-> _]|(item & rest & Hq & _ & ->)] end; simpl.
  - by rewrite app_assoc.
  - simpl in Hq. rewrite <- !app_assoc. simpl. by rewrite <- Hq, app_assoc.
Qed.

(** The two ways through [fetchWithCache], by what the lookup returned. *)
Lemma fetchWithCache_unfold key (fetcher : Task) forceRefresh w :
  let cached := (PersistentStorage.get js key (browser w)).1 in
  let b1 := (PersistentStorage.get js key (browser w)).2 in
  let log := calls w ++ [mkCall key fetcher forceRefresh] in
  let through_queue :=
    (Await (promises (apiQueue w)) (fetchWithCache_resume js key cached),
     mkWorld b1 (add fetcher (apiQueue w)).2 log) in
  fetchWithCache js key fetcher forceRefresh w =
    match cached with
    | Some c =>
        if negb (isExpired c) && negb forceRefresh
        then (Done (Fulfilled (r_value c)), mkWorld b1 (apiQueue w) log)
        else through_queue
    | None => through_queue
    end.
Proof.
  intros cached b1 log through_queue. subst cached b1 through_queue.
  unfold fetchWithCache, log_call, storage, queue_, bind, modify, ret. simpl.
  destruct (PersistentStorage.get js key (browser w)) as [cached b1]. simpl.
  pose proof (add_spec fetcher (apiQueue w)) as (Hh & _).
  destruct cached as [c|]; [destruct (negb (isExpired c) && negb forceRefresh); [done|]|];
    simpl; destruct (add fetcher (apiQueue w)) as [h q1]; simpl in *; by subst h.
Qed.

End OrchestratorFacts.

Section OrchestratorProperties.
Context {Task T : Type} (js : Platform T).
Import RequestQueue.

Implicit Types (w : World Task T).

(** C1. When [fetchWithCache] has queued its fetcher and the queued run
    rejects, the call rejects exactly when the lookup at the start of the
    call found no entry: with an entry, fresh or expired, it resolves with
    the cached value; with none it rejects with the fetcher's error. This
    holds of the code after the [await], and of the call as a whole on a
    queue that has run any trace in which the operation of this call
    rejected. (A call that is served from a fresh entry never runs the
    fetcher.) *)
Theorem fetchWithCache_rejects_iff_no_entry key (fetcher : Task) forceRefresh w :
  let cached := (PersistentStorage.get js key (browser w)).1 in
  let outcome error : Settled T :=
    match cached with
    | Some c => Fulfilled (r_value c)
    | None => Rejected error
    end in
  match fetchWithCache js key fetcher forceRefresh w with
  | (Await h k, w1) =>
      h = promises (apiQueue w) ∧
      (∀ error w2,
         k (Rejected error) w2 = (Done (outcome error), w2) ∧
         (is_rejected (outcome error) = true ↔ cached = None)) ∧
      (∀ c evs0 evs1 q2 error b2 log2,
         run evs0 (new c) = Some (apiQueue w) →
         run evs1 (apiQueue w1) = Some q2 →
         Settle h (Rejected error) ∈ evs1 →
         resume (Await h k) (mkWorld b2 q2 log2)
           = Some (Done (outcome error), mkWorld b2 q2 log2))
  | (Done r, _) =>
      forceRefresh = false ∧
      ∃ c, cached = Some c ∧ isExpired c = false ∧ r = Fulfilled (r_value c)
  | (Tick _, _) => False
  end.
Proof.
  intros cached outcome. rewrite fetchWithCache_unfold. fold cached.
  set (k := fetchWithCache_resume js key cached).
  assert (∀ error w2,
            k (Rejected error) w2 = (Done (outcome error), w2) ∧
            (is_rejected (outcome error) = true ↔ cached = None)) as Hk.
  { intros error w2. subst k outcome. simpl. by destruct cached. }
  assert (∀ c evs0 evs1 q2 error b2 log2,
            run evs0 (new c) = Some (apiQueue w) →
            run evs1 (add fetcher (apiQueue w)).2 = Some q2 →
            Settle (promises (apiQueue w)) (Rejected error) ∈ evs1 →
            resume (Await (promises (apiQueue w)) k) (mkWorld b2 q2 log2)
              = Some (Done (outcome error), mkWorld b2 q2 log2)) as Hrun.
  { intros c evs0 evs1 q2 error b2 log2 H0 H1 Hin.
    assert (run (evs0 ++ Add fetcher :: evs1) (new c) = Some q2) as Hall
      by (by rewrite run_app, H0).
    apply run_inv in Hall.
    assert (handles q2 !! promises (apiQueue w) = Some (Rejected error)) as Hh.
    { apply (inv_settled _ _ _ Hall). rewrite elem_of_app, elem_of_cons. auto. }
    simpl. rewrite Hh. by rewrite (proj1 (Hk error _)). }
  destruct cached as [c|] eqn:Hc; simpl; [|done].
  destruct (isExpired c) eqn:Hexp, forceRefresh; simpl; try done.
  split; [done|]. by exists c.
Qed.

(** C2. [fetchWithCache] hands its fetcher to the queue exactly when
    [forceRefresh] is set or the lookup found no entry that is not expired.
    Then it makes exactly one [add]: one more promise, one more item behind
    those already there. Otherwise it returns the cached value and leaves
    the queue, the started operations and [localStorage] as they were. *)
Theorem fetchWithCache_queues_iff key (fetcher : Task) forceRefresh w :
  let cached := (PersistentStorage.get js key (browser w)).1 in
  let fresh := match cached with Some c => negb (isExpired c) | None => false end in
  let a := (fetchWithCache js key fetcher forceRefresh w).1 in
  let q := apiQueue w in
  let q1 := apiQueue (fetchWithCache js key fetcher forceRefresh w).2 in
  if forceRefresh || negb fresh then
    (∃ k, a = Await (promises q) k) ∧
    q1 = (add fetcher q).2 ∧
    promises q1 = S (promises q) ∧
    invoked q1 ++ queue (rq q1)
      = (invoked q ++ queue (rq q)) ++ [mkItem fetcher (promises q)]
  else
    (∃ c, cached = Some c ∧ a = Done (Fulfilled (r_value c))) ∧
    q1 = q ∧
    localStorage (browser (fetchWithCache js key fetcher forceRefresh w).2)
      = localStorage (browser w).
Proof.
  intros cached fresh a q q1. subst a q1.
  rewrite fetchWithCache_unfold. fold cached. fold fresh.
  pose proof (add_spec fetcher q) as (_ & Hp & Hitems & _).
  subst fresh. destruct cached as [c|]; simpl.
  - destruct (isExpired c), forceRefresh; simpl;
      try (split_and!; [by eexists | done | done | done]).
    split_and!; [by exists c | done | apply get_localStorage].
  - rewrite orb_true_r. split_and!; [by eexists | done | done | done].
Qed.

End OrchestratorProperties.

(** ** Derived metrics *)


(** ** Prefetch and full refresh *)

Section ApiFacts.
Context {T : Type} (js : Platform T) (data_stocks : T → list Stock).

#[local] Abbreviation W := (World Fetcher T).
Implicit Types (w : W) (b : Browser) (key : string).

Lemma bind_eq {S A B} (m : State S A) (f : A → State S B) (s : S) :
  bind m f s = f (m s).1 (m s).2.
Proof. unfold bind. by destruct (m s). Qed.


(** [clearAll] removes exactly the keys of the namespace. *)
Lemma clearAll_loop (keys : list string) b k :
  localStorage
    (forEach keys (λ key,
       if String.prefix PersistentStorage.prefix key
       then PersistentStorage.removeItem key else ret ()) b).2 !! k
  = if bool_decide (k ∈ keys) && String.prefix PersistentStorage.prefix k
    then None else localStorage b !! k.
Proof.
  revert b. induction keys as [|key keys IH]; intros b; simpl; [done|].
  rewrite bind_eq, IH.
  destruct (decide (k = key)) as [->|Hne].
  - rewrite (bool_decide_eq_true_2 (key ∈ key :: keys)) by left.
    destruct (String.prefix PersistentStorage.prefix key) eqn:Hp; simpl.
    + destruct (bool_decide _); simpl; [done | apply lookup_delete_eq].
    + by rewrite andb_false_r.
  - assert (bool_decide (k ∈ key :: keys) = bool_decide (k ∈ keys)) as ->.
    { apply bool_decide_ext. rewrite elem_of_cons. naive_solver. }
    destruct (bool_decide (k ∈ keys) && _); [done|].
    destruct (String.prefix PersistentStorage.prefix key); simpl; [|done].
    by apply lookup_delete_ne.
Qed.

Lemma clearAll_lookup b k :
  localStorage (PersistentStorage.clearAll b).2 !! k
  = if String.prefix PersistentStorage.prefix k then None else localStorage b !! k.
Proof.
  unfold PersistentStorage.clearAll, PersistentStorage.Object_keys.
  rewrite bind_eq. unfold gets at 2. simpl. rewrite clearAll_loop.
  unfold gets. simpl.
  destruct (String.prefix PersistentStorage.prefix k); [|by rewrite andb_false_r].
  rewrite andb_true_r. case_bool_decide as Hin; [done|].
  destruct (localStorage b !! k) as [v|] eqn:Hk; [|done].
  exfalso. apply Hin. apply list_elem_of_fmap. exists (k, v).
  split; [done | by apply elem_of_map_to_list].
Qed.

Lemma clearAll_empties b key b' :
  localStorage b' = localStorage (PersistentStorage.clearAll b).2 →
  PersistentStorage.get js key b' = (None, b').
Proof.
  intros Hls. apply get_absent. by rewrite Hls, clearAll_lookup, prefix_key.
Qed.





Section Stable.
(** While the pass runs, [localStorage] is [ls] and the clock, read from
    its [r0]-th reading on, does not carry any entry over its expiry. *)
Variables (ls : gmap string string) (r0 : nat).
Hypothesis stable : ∀ n key, (r0 ≤ n)%nat →
  fresh_at js ls (clock js n) key = fresh_at js ls (clock js r0) key.







End Stable.

End ApiFacts.

Section ApiProperties.
Context {T : Type} (js : Platform T) (data_stocks : T → list Stock).
Import RequestQueue.

Implicit Types (w : World Fetcher T) (key : string).


(** C10. [refreshStocksData] empties the namespace of the store before it
    starts the list fetch: from then on no key has an entry, so the fetch
    goes through the queue with nothing to fall back on, and when the
    queued fetch rejects the call rejects too (with the [ApiError] of
    [fetchStocks] around the reason). A call of [fetchWithCache] with
    [forceRefresh], in contrast, keeps the entry it found and resolves
    with its value when the fetch rejects. *)
Theorem refreshStocksData_forfeits_fallback w :
  let w0 := (storage PersistentStorage.clearAll w).2 in
  let a := (refreshStocksData js data_stocks w).1 in
  let w1 := (refreshStocksData js data_stocks w).2 in
  (∀ key b, localStorage b = localStorage (browser w0) →
     PersistentStorage.get js key b = (None, b)) ∧
  localStorage (browser w1) = localStorage (browser w0) ∧
  calls w1 = calls w ++ [mkCall "stocks_list" fetchStocks_fetchLogic false] ∧
  apiQueue w1 = (add fetchStocks_fetchLogic (apiQueue w)).2 ∧
  match a with
  | Await h k =>
      h = promises (apiQueue w) ∧
      ∀ error w2, ∃ a1,
        k (Rejected error) w2 = (a1, w2) ∧
        resume a1 w2 = Some (Done (Rejected (fetchStocks_error error)), w2)
  | _ => False
  end ∧
  (∀ key (fetcher : Fetcher) c,
     (PersistentStorage.get js key (browser w)).1 = Some c →
     match (fetchWithCache js key fetcher true w).1 with
     | Await h k =>
         ∀ error w2, k (Rejected error) w2 = (Done (Fulfilled (r_value c)), w2)
     | _ => False
     end).
Proof.
  intros w0 a w1.
  assert (∀ key b, localStorage b = localStorage (browser w0) →
            PersistentStorage.get js key b = (None, b)) as Hempty.
  { intros key b Hb. eapply clearAll_empties. rewrite Hb. subst w0.
    by rewrite storage_eq. }
  split; [done|].
  subst a w1. unfold refreshStocksData, fetchStocks. rewrite !bind_eq. fold w0.
  rewrite fetchWithCache_unfold.
  rewrite (Hempty "stocks_list" (browser w0) eq_refl). simpl.
  assert (apiQueue w0 = apiQueue w ∧ calls w0 = calls w) as [-> ->].
  { subst w0. by rewrite storage_eq. }
  split_and!; try done.
  - intros error w2. eexists. split; reflexivity.
  - intros key fetcher c Hc. rewrite fetchWithCache_unfold, Hc. simpl.
    by destruct (isExpired c).
Qed.

End ApiProperties.

(** * Worked examples *)

(** The scenario of the cache with a TTL of 1000 ms: [set("x", 42)] at 0;
    [get("x")] at 500 and at 1500; [set("x", 99)] at 1500; [get("x")] at 1600. *)
Example ttl_scenario :
  let js := Demo.platform (Demo.readings [0; 500; 1500; 1500; 1600]) in
  let b1 := (PersistentStorage.set js "x" 42 1000 Demo.fresh_browser).2 in
  let r2 := PersistentStorage.get js "x" b1 in
  let r3 := PersistentStorage.get js "x" r2.2 in
  let b4 := (PersistentStorage.set js "x" 99 1000 r3.2).2 in
  let r5 := PersistentStorage.get js "x" b4 in
  r2.1 = Some (mkCacheRead 42 false 0) ∧
  r3.1 = Some (mkCacheRead 42 true 0) ∧
  r5.1 = Some (mkCacheRead 99 false 1500) ∧
  localStorage b1 !! "stock_app_cache_x" = Some "42,0,1000".
Proof. vm_compute. done. Qed.

(** [remove], [clearExpired] and [clearAll] on a store of three entries, one
    of them outside the namespace. *)
Example clear_scenario :
  let js := Demo.platform (Demo.readings [0; 0; 2000]) in
  let b0 := mkBrowser {[ "theme" := "dark" ]} 0 in
  let b1 := (PersistentStorage.set js "a" 1 1000 b0).2 in
  let b2 := (PersistentStorage.set js "b" 2 5000 b1).2 in
  let b3 := (PersistentStorage.clearExpired js b2).2 in
  let b4 := (PersistentStorage.clearAll b2).2 in
  let b5 := (PersistentStorage.remove "b" b2).2 in
  localStorage b3 = {[ "theme" := "dark"; "stock_app_cache_b" := "2,0,5000" ]} ∧
  localStorage b4 = {[ "theme" := "dark" ]} ∧
  localStorage b5 = {[ "theme" := "dark"; "stock_app_cache_a" := "1,0,1000" ]}.
Proof. vm_compute. done. Qed.

(** Three tasks on a queue of capacity 2: the third waits until the first
    has finished, whatever its outcome. *)
Example queue_scenario :
  let evs := [RequestQueue.Add "t0"; RequestQueue.Add "t1"; RequestQueue.Add "t2";
              RequestQueue.Settle 0 (Rejected (Error "down")); RequestQueue.Finally 0;
              RequestQueue.Settle 2 (Fulfilled 7)] in
  ∃ s, RequestQueue.run evs (RequestQueue.new 2) = Some s ∧
       RequestQueue.task <$> RequestQueue.invoked s = ["t0"; "t1"; "t2"] ∧
       RequestQueue.activeCount (RequestQueue.rq s) = 2 ∧
       RequestQueue.handles s !! 0%nat = Some (Rejected (Error "down")) ∧
       RequestQueue.handles s !! 1%nat = None ∧
       RequestQueue.handles s !! 2%nat = Some (Fulfilled 7).
Proof. eexists. split; [vm_compute; reflexivity | vm_compute; done]. Qed.

(** The metrics of a stock at 100 predicted at 110 and 95, and of one whose
    current price is 0. *)
Example metrics_scenario :
  let s := fetchStocks_withPrices (Demo.stock_of "2330") 100 110 95 in
  let z := fetchStocks_withPrices (Demo.stock_of "2330") 0 110 95 in
  (changePercent1 s, changePercent2 s, averageChangePercent s)
    = (10, -5, 2.5)%float ∧
  (change1 z, changePercent1 z, changePercent2 z, averageChangePercent z)
    = (110, 0, 0, 0)%float.
Proof. vm_compute. done. Qed.

(** ** The properties at concrete inputs *)

(** A queue of capacity 2 with three tasks: after the three [add]s two
    operations run and one task waits. *)
Lemma queue_active_bounded_witness :
  ∃ s1 : RequestQueue.Sched string Z,
    RequestQueue.run
      [RequestQueue.Add "t0"; RequestQueue.Add "t1"; RequestQueue.Add "t2"]
      (RequestQueue.new 2) = Some s1 ∧
    RequestQueue.concurrency (RequestQueue.rq s1) = 2 ∧
    0 ≤ RequestQueue.activeCount (RequestQueue.rq s1)
      ≤ RequestQueue.concurrency (RequestQueue.rq s1) ∧
    RequestQueue.activeCount (RequestQueue.rq s1)
      = Z.of_nat (size (RequestQueue.running s1))
        + Z.of_nat (size (RequestQueue.finishing s1)) ∧
    Z.of_nat (size (RequestQueue.running s1)) ≤ 2.
Proof.
  eapply (queue_active_bounded 2
            [RequestQueue.Add "t0"; RequestQueue.Add "t1"; RequestQueue.Add "t2"]
            [RequestQueue.Settle 0 (Fulfilled 7); RequestQueue.Finally 0]).
  - lia.
  - vm_compute. reflexivity.
Defined.

(** A queue of capacity 1: the second and the third task wait, in the order
    of their [add]s, behind the first. *)
Lemma queue_fifo_witness :
  let evs := [RequestQueue.Add "t0"; RequestQueue.Add "t1"; RequestQueue.Add "t2";
              RequestQueue.Settle 0 (Fulfilled 7); RequestQueue.Finally 0] in
  ∃ s : RequestQueue.Sched string Z,
    RequestQueue.run evs (RequestQueue.new 1) = Some s ∧
    RequestQueue.invoked s ++ RequestQueue.queue (RequestQueue.rq s)
      = [RequestQueue.mkItem "t0" 0; RequestQueue.mkItem "t1" 1; RequestQueue.mkItem "t2" 2] ∧
    RequestQueue.task <$> RequestQueue.invoked s = ["t0"; "t1"].
Proof.
  intros evs. eexists. split; [vm_compute; reflexivity|]. split.
  - apply (queue_fifo 1 evs). vm_compute. reflexivity.
  - reflexivity.
Defined.

(** A queue of capacity 2: the first of two running operations rejects; only
    its handle is settled. *)
Lemma queue_failure_isolated_witness :
  let evs := [RequestQueue.Add "t0"; RequestQueue.Add "t1";
              RequestQueue.Settle 0 (Rejected (Error "down"))] in
  ∃ s : RequestQueue.Sched string Z,
    RequestQueue.run evs (RequestQueue.new 2) = Some s ∧
    ∀ h o, RequestQueue.handles s !! h = Some o ↔ RequestQueue.Settle h o ∈ evs.
Proof.
  intros evs. eexists. split; [vm_compute; reflexivity|].
  apply (queue_failure_isolated 2 evs). vm_compute. reflexivity.
Defined.


(** The entry written at 0 with a TTL of 1000, read at 1500 after a read of
    another key. *)
Lemma get_expired_still_readable_witness :
  let js := Demo.platform (Demo.readings [1500]) in
  let b := mkBrowser {[ "stock_app_cache_x" := "42,0,1000" ]} 0 in
  let b' := gets_all js ["y"] b in
  (PersistentStorage.get js "x" b').1 = Some (mkCacheRead 42 true 0) ∧
  localStorage (PersistentStorage.get js "x" b').2 = localStorage b.
Proof.
  intros js b b'.
  destruct (get_expired_still_readable js "x" "42,0,1000" (mkCacheItem 42 0 1000) ["y"] b)
    as (Hread & Hsame & _ & _).
  - reflexivity.
  - discriminate.
  - vm_compute. reflexivity.
  - vm_compute. reflexivity.
  - split; [exact Hread | exact Hsame].
Defined.


(** The same pass by evaluation: the calls it logs and the promises it makes. *)
Example prefetch_scenario :
  let js := Demo.platform (λ _, 1000) in
  let w := mkWorld (mkBrowser {[ "stock_app_cache_stock_detail_2330" := "1,0,5000" ]} 0)
                   (RequestQueue.new 3) [] in
  let stocks := [Demo.stock_of "2330"; Demo.stock_of "2317"; Demo.stock_of "2454"] in
  let w' := (prefetchAllStocksDetails js stocks w).2 in
  call_key <$> List.filter is_detail_call (calls w')
    = ["stock_detail_2317"; "stock_detail_2454"] ∧
  length (calls w') = 8%nat ∧
  RequestQueue.promises (apiQueue w') = 8%nat ∧
  RequestQueue.task <$> RequestQueue.invoked (apiQueue w')
    = [fetchHistoricalData_fetchLogic "2330" 30;
       fetchStockPrediction_fetchLogic "2330";
       fetchStockDetail_fetchLogic "2317"].
Proof. vm_compute. done. Qed.

(** A call of [fetchWithCache] from start to end: the call, the queue events
    that settle its fetcher, the turn after the [await]. With a stale entry
    and a failing backend it resolves with the stale value; without an entry
    it rejects with the error of the fetcher; when the fetch succeeds the
    new value is returned and stored with the default TTL. *)
Example fallback_scenario :
  let js := Demo.platform (Demo.readings [1500; 1600]) in
  let stale := mkWorld (mkBrowser {[ "stock_app_cache_k" := "42,0,1000" ]} 0)
                       (RequestQueue.new 3) [] in
  let call (w : World string Z) (o : Settled Z) :=
    let '(a, w1) := fetchWithCache js "k" "fetcher" false w in
    match RequestQueue.run [RequestQueue.Settle 0 o; RequestQueue.Finally 0] (apiQueue w1) with
    | Some q2 => resume a (mkWorld (browser w1) q2 (calls w1))
    | None => None
    end in
  fst <$> call stale (Rejected (Error "down")) = Some (Done (Fulfilled 42)) ∧
  fst <$> call (Demo.fresh_world 3) (Rejected (Error "down"))
    = Some (Done (Rejected (Error "down"))) ∧
  fst <$> call stale (Fulfilled 99) = Some (Done (Fulfilled 99)) ∧
  (λ p, localStorage (browser p.2)) <$> call stale (Fulfilled 99)
    = Some {[ "stock_app_cache_k" := "99,1600,86401600" ]}.
Proof. vm_compute. done. Qed.

(** [refreshStocksData] on a store that holds the list: the entry is gone
    before the fetch starts, and when the fetch fails the call rejects. *)
Example refresh_scenario :
  let js := Demo.platform (λ _, 1000) in
  let w := mkWorld (mkBrowser {[ "stock_app_cache_stocks_list" := "7,0,5000" ]} 0)
                   (RequestQueue.new 3) [] in
  let '(a, w1) := refreshStocksData js (λ _, []) w in
  localStorage (browser w1) = ∅ ∧
  match RequestQueue.run [RequestQueue.Settle 0 (Rejected (Error "down"))] (apiQueue w1) with
  | Some q2 =>
      match resume a (mkWorld (browser w1) q2 (calls w1)) with
      | Some (a1, w2) => fst <$> resume a1 w2
      | None => None
      end
  | None => None
  end = Some (Done (Rejected (ApiError "FETCH_STOCKS_ERROR" "down" (Error "down")))).
Proof. vm_compute. done. Qed.

(** * Further properties *)

(** ** The bounded queue *)

Section QueueMore.
Context {Task T : Type}.
Import RequestQueue.

Implicit Types (s : RequestQueue.Sched Task T) (evs : list (RequestQueue.Event Task T))
               (ev : RequestQueue.Event Task T) (h : nat).

Lemma busy_new c : busy (Task:=Task) (T:=T) (new c).
Proof. split; simpl; [by left | by intros h ?%elem_of_nil]. Qed.

Lemma busy_step ev s s' :
  busy s → step ev s = Some s' → busy s'.
Proof.
  intros [Hfull Hstarted] Hstep. destruct ev as [task|h o|h]; simpl in Hstep.
  - injection Hstep as <-. unfold add, new_promise, push, bind, modify, ret.
    destruct (processNext _) as [[] s1] eqn:E. simpl.
    change s1 with (((), s1).2). rewrite <- E.
    match goal with |- context [processNext ?s0] =>
      destruct (processNext_cases s0) as [[-> Hcase]|(item & rest & Hq & Hlt & ->)] end;
      simpl in *.
    + split; simpl; [|done].
      destruct Hcase as [?|Hnil]; [by right | by destruct (queue (rq s))].
    + split; simpl.
      * destruct Hfull as [Hnil|?]; [|lia].
        rewrite Hnil in Hq. simpl in Hq. injection Hq as _ <-. by left.
      * intros h. rewrite fmap_app, elem_of_app. simpl. rewrite list_elem_of_singleton.
        intros [Hin| ->]; [|left; set_solver].
        destruct (Hstarted h Hin); [left; set_solver | by right].
  - destruct (decide (h ∈ running s)); [|done]. injection Hstep as <-.
    split; simpl; [done|].
    intros h' Hin. destruct (decide (h' = h)) as [->|Hne].
    + right. rewrite lookup_insert_eq. by eexists.
    + rewrite lookup_insert_ne by done.
      destruct (Hstarted h' Hin); [left; set_solver | by right].
  - destruct (decide (h ∈ finishing s)); [|done]. injection Hstep as <-.
    unfold finally, bind, modify.
    destruct (processNext _) as [[] s1] eqn:E. simpl.
    change s1 with (((), s1).2). rewrite <- E.
    match goal with |- context [processNext ?s0] =>
      destruct (processNext_cases s0) as [[-> Hcase]|(item & rest & Hq & Hlt & ->)] end;
      simpl in *.
    + split; simpl; [|done]. destruct Hcase as [?|?]; [by right | by left].
    + split; simpl.
      * destruct Hfull as [Hnil|?]; [by rewrite Hnil in Hq | right; lia].
      * intros h'. rewrite fmap_app, elem_of_app. simpl. rewrite list_elem_of_singleton.
        intros [Hin| ->]; [|left; set_solver].
        destruct (Hstarted h' Hin); [left; set_solver | by right].
Qed.

Lemma run_busy c evs s :
  run evs (new c) = Some s → busy s.
Proof.
  assert (∀ evs s0 s', busy s0 → run evs s0 = Some s' → busy s') as Hfrom.
  { clear. induction evs as [|ev evs IH]; intros s0 s' Hb; simpl.
    - by intros [= <-].
    - destruct (step ev s0) as [s1|] eqn:E; [|done].
      apply IH. by eapply busy_step. }
  apply Hfrom, busy_new.
Qed.

(** A trace that goes on from a reachable state is a trace from the start. *)
Lemma run_extend c evs evs' s s' :
  run evs (new c) = Some s → run evs' s = Some s' →
  run (evs ++ evs') (new c) = Some s'.
Proof. intros H1 H2. by rewrite run_app, H1. Qed.

(** X1. While a task waits, no slot of the queue is free: [activeCount] is at
    least the capacity (and equal to it for a capacity that is not
    negative), so with a positive capacity some operation is running or
    about to give its slot back. *)
Theorem queue_no_idle_slot c evs s :
  run evs (new c) = Some s →
  queue (rq s) ≠ [] →
  concurrency (rq s) ≤ activeCount (rq s) ∧
  (0 ≤ c → activeCount (rq s) = c) ∧
  (0 < c → ∃ h, h ∈ running s ∪ finishing s).
Proof.
  intros Hrun Hq. pose proof (run_inv _ _ _ Hrun) as I.
  destruct (run_busy _ _ _ Hrun) as [[?|Hfull] _]; [done|].
  rewrite (inv_conc _ _ _ I) in Hfull. split_and!.
  - by rewrite (inv_conc _ _ _ I).
  - intros Hc. pose proof (inv_cap _ _ _ I Hc). lia.
  - intros Hc. pose proof (inv_count _ _ _ I) as Hn.
    destruct (set_choose_or_empty (running s ∪ finishing s)) as [|Hempty]; [done|].
    apply size_empty_iff in Hempty.
    rewrite size_union in Hempty by apply (inv_disj _ _ _ I). lia.
Qed.

(** X2. A queue whose capacity is zero or negative never starts a task: every
    task that is added waits, in the order of the calls, and no handle is
    ever settled. *)
Theorem queue_without_capacity c evs s :
  c ≤ 0 →
  run evs (new c) = Some s →
  invoked s = [] ∧
  queue (rq s) = added_from 0 evs ∧
  handles s = ∅ ∧
  activeCount (rq s) = 0 ∧
  (∀ h o, Settle h o ∉ evs) ∧ (∀ h, Finally h ∉ evs).
Proof.
  intros Hc. revert s. induction evs as [|ev evs IH] using rev_ind; intros s Hrun.
  - injection Hrun as <-. simpl. split_and!; try done; intros; apply not_elem_of_nil.
  - rewrite run_snoc in Hrun.
    destruct (run evs (new c)) as [s0|] eqn:H0; [|done]. simpl in Hrun.
    destruct (IH s0 eq_refl) as (Hinv & Hq & Hh & Hac & Hns & Hnf).
    pose proof (run_inv _ _ _ H0) as I0.
    assert (running s0 ∪ finishing s0 ≡ ∅) as Hidle.
    { apply elem_of_equiv_empty. intros h Hh'.
      apply (inv_started _ _ _ I0) in Hh'. rewrite Hinv in Hh'. by apply elem_of_nil in Hh'. }
    destruct ev as [task|h o|h]; simpl in Hrun.
    + pose proof (run_inv c (evs ++ [Add task]) s) as I.
      rewrite run_snoc, H0 in I. specialize (I Hrun).
      injection Hrun as <-. revert I.
      unfold add, new_promise, push, bind, modify, ret.
      destruct (processNext _) as [[] s1] eqn:E. simpl.
      change s1 with (((), s1).2). rewrite <- E.
      match goal with |- context [processNext ?s0] =>
        destruct (processNext_cases s0) as [[-> _]|(item & rest & _ & Hlt & _)] end;
        simpl in *.
      * intros I. split_and!; simpl; try done.
        -- rewrite <- (inv_fifo _ _ _ I). simpl. by rewrite Hinv.
        -- intros h o. rewrite elem_of_app, list_elem_of_singleton. naive_solver.
        -- intros h. rewrite elem_of_app, list_elem_of_singleton. naive_solver.
      * rewrite (inv_conc _ _ _ I0) in Hlt. lia.
    + destruct (decide (h ∈ running s0)) as [Hin|]; [|done]. set_solver.
    + destruct (decide (h ∈ finishing s0)) as [Hin|]; [|done]. set_solver.
Qed.

(** X3. Every task is started at most once and is never both started and
    waiting; the tasks that wait and the tasks that were started are
    together the tasks that were added ([pendingCount] counts the first). *)
Theorem queue_each_task_once c evs s :
  run evs (new c) = Some s →
  NoDup (handle <$> invoked s) ∧
  NoDup (handle <$> queue (rq s)) ∧
  (∀ x y, x ∈ invoked s → y ∈ queue (rq s) → handle x ≠ handle y) ∧
  (pendingCount s + length (invoked s))%nat = promises s ∧
  promises s = length (added_from 0 evs).
Proof.
  intros Hrun. pose proof (run_inv _ _ _ Hrun) as I.
  pose proof (inv_NoDup _ _ _ I) as ND. rewrite fmap_app in ND.
  apply NoDup_app in ND as (ND1 & Hdisj & ND2).
  split_and!; [done | done | | | apply (inv_promises _ _ _ I)].
  - intros x y Hx Hy Heq. apply (Hdisj (handle x)).
    + by apply list_elem_of_fmap_2.
    + rewrite Heq. by apply list_elem_of_fmap_2.
  - rewrite (inv_promises _ _ _ I), <- (inv_fifo _ _ _ I), length_app.
    unfold pendingCount. lia.
Qed.

(** X4. A handle is settled once and for good: what it holds at some point of
    a trace it holds at every later point. Only the handle of a started task
    is ever settled; the handle of a waiting task is not. *)
Theorem queue_handle_settled_for_good c pre post s1 s h o :
  run pre (new c) = Some s1 →
  run post s1 = Some s →
  handles s1 !! h = Some o →
  handles s !! h = Some o ∧
  h ∈ (handle <$> invoked s1) ∧
  (h ∉ running s) ∧
  (∀ x, x ∈ queue (rq s) → handles s !! handle x = None).
Proof.
  intros Hpre Hpost Hh.
  pose proof (run_inv _ _ _ Hpre) as I1.
  pose proof (run_inv _ _ _ (run_extend _ _ _ _ _ Hpre Hpost)) as I.
  assert (handles s !! h = Some o) as Hs.
  { apply (inv_settled _ _ _ I). rewrite elem_of_app. left.
    by apply (inv_settled _ _ _ I1). }
  split_and!; [done | | |].
  - apply (inv_settled_done _ _ _ I1). by eexists.
  - apply (inv_settled_done _ _ _ I). by eexists.
  - intros x Hx. destruct (handles s !! handle x) eqn:Hx'; [|done]. exfalso.
    destruct (inv_settled_done _ _ _ I (handle x)) as [_ Hin]; [by eexists|].
    pose proof (inv_NoDup _ _ _ I) as ND. rewrite fmap_app in ND.
    apply NoDup_app in ND as (_ & Hdisj & _).
    apply (Hdisj _ Hin). by apply list_elem_of_fmap_2.
Qed.



End QueueMore.

(** ** The cache store *)

Section StorageMore.
Context {T : Type} (js : Platform T).

Implicit Types (b : Browser) (key k s : string).

Lemma key_inj key key' :
  PersistentStorage.prefix +:+ key = PersistentStorage.prefix +:+ key' → key = key'.
Proof. apply String.app_inj. Qed.

(** What [get] returns depends on the entry of its key and on the clock. *)
Lemma get_same_entry key b1 b2 :
  localStorage b1 !! (PersistentStorage.prefix +:+ key)
    = localStorage b2 !! (PersistentStorage.prefix +:+ key) →
  reads b1 = reads b2 →
  (PersistentStorage.get js key b1).1 = (PersistentStorage.get js key b2).1.
Proof.
  intros Hl Hr.
  unfold PersistentStorage.get, PersistentStorage.getItem, PersistentStorage.Date_now,
    bind, gets, ret.
  rewrite Hl. destruct (localStorage b2 !! _) as [[|a s]|]; [done| |done].
  destruct (JSON_parse js _); [|done]. simpl. by rewrite Hr.
Qed.

(** One pass of [forEach] over keys, each of which is deleted or kept by what
    [localStorage] holds under it. *)
Lemma sweep_lookup (doomed : string → string → bool) (keys : list string) b k :
  let body key : State Browser unit :=
    let* itemStr := PersistentStorage.getItem key in
    match itemStr with
    | Some s => if doomed key s then PersistentStorage.removeItem key else ret ()
    | None => ret ()
    end in
  let b' := (forEach keys body b).2 in
  reads b' = reads b ∧
  localStorage b' !! k =
    match localStorage b !! k with
    | Some s => if bool_decide (k ∈ keys) && doomed k s then None else Some s
    | None => None
    end.
Proof.
  intros body. revert b. induction keys as [|key keys IH]; intros b; simpl.
  - split; [done|]. by destruct (localStorage b !! k).
  - rewrite bind_eq.
    set (b1 := (body key b).2).
    assert (reads b1 = reads b ∧
            localStorage b1 !! k =
              match localStorage b !! k with
              | Some s => if bool_decide (k = key) && doomed k s then None else Some s
              | None => None
              end) as [Hr1 Hl1].
    { subst b1 body. unfold PersistentStorage.getItem, PersistentStorage.removeItem,
        bind, gets, modify, ret. simpl.
      destruct (localStorage b !! key) as [s|] eqn:Hkey; simpl.
      - destruct (doomed key s) eqn:Hd; simpl.
        + split; [done|]. destruct (decide (k = key)) as [->|Hne].
          * by rewrite lookup_delete_eq, Hkey, bool_decide_eq_true_2, Hd.
          * rewrite lookup_delete_ne by done.
            rewrite bool_decide_eq_false_2 by done. by destruct (localStorage b !! k).
        + split; [done|]. destruct (decide (k = key)) as [->|Hne].
          * by rewrite Hkey, Hd, andb_false_r.
          * rewrite bool_decide_eq_false_2 by done. by destruct (localStorage b !! k).
      - split; [done|]. destruct (decide (k = key)) as [->|Hne].
        + by rewrite Hkey.
        + rewrite bool_decide_eq_false_2 by done. by destruct (localStorage b !! k). }
    destruct (IH b1) as [Hr Hl]. split; [congruence|].
    rewrite Hl, Hl1. destruct (localStorage b !! k) as [s|]; [|done].
    destruct (decide (k = key)) as [->|Hne].
    + rewrite (bool_decide_eq_true_2 (key = key)) by done.
      rewrite (bool_decide_eq_true_2 (key ∈ key :: keys)) by left. simpl.
      destruct (doomed key s) eqn:Hd; [done|]. by rewrite Hd, andb_false_r.
    + rewrite (bool_decide_eq_false_2 (k = key)) by done. simpl.
      assert (bool_decide (k ∈ key :: keys) = bool_decide (k ∈ keys)) as ->; [|done].
      apply bool_decide_ext. rewrite elem_of_cons. naive_solver.
Qed.

Lemma keys_of_store b k :
  k ∈ (map_to_list (localStorage b)).*1 ↔ is_Some (localStorage b !! k).
Proof.
  rewrite list_elem_of_fmap. split.
  - intros [[k' v] [-> Hin]]. apply elem_of_map_to_list in Hin. by eexists.
  - intros [v Hv]. exists (k, v). split; [done | by apply elem_of_map_to_list].
Qed.

Lemma clearExpired_lookup b k :
  let now := clock js (reads b) in
  let b' := (PersistentStorage.clearExpired js b).2 in
  reads b' = S (reads b) ∧
  localStorage b' !! k =
    match localStorage b !! k with
    | Some s =>
        if String.prefix PersistentStorage.prefix k && stale_text js now s
        then None else Some s
    | None => None
    end.
Proof.
  intros now b'. subst b'.
  unfold PersistentStorage.clearExpired, PersistentStorage.Object_keys.
  rewrite !bind_eq. unfold PersistentStorage.Date_now at 1 2 3, gets at 1 2. simpl.
  fold now.
  set (b0 := mkBrowser (localStorage b) (S (reads b))).
  pose proof (sweep_lookup
    (λ key s, String.prefix PersistentStorage.prefix key && stale_text js now s)
    (map_to_list (localStorage b)).*1 b0 k) as Hsweep. simpl in Hsweep.
  match type of Hsweep with
  | reads (forEach _ ?body _).2 = _ ∧ _ =>
      match goal with
      | |- reads (forEach _ ?body' _).2 = _ ∧ _ =>
          assert (∀ key b1, body' key b1 = body key b1) as Hbody
      end
  end.
  { intros key b1. unfold bind, PersistentStorage.getItem, gets, stale_text. simpl.
    destruct (String.prefix PersistentStorage.prefix key); simpl.
    - destruct (localStorage b1 !! key) as [[|a s]|]; [done| |done].
      destruct (JSON_parse js (String a s)) as [item|]; [|done].
      by destruct (now >? expiry item).
    - by destruct (localStorage b1 !! key). }
  assert (∀ keys b1 (f g : string → State Browser unit),
            (∀ key b2, f key b2 = g key b2) → forEach keys f b1 = forEach keys g b1) as Hext.
  { clear. induction keys as [|key keys IH]; intros b1 f g Hfg; simpl; [done|].
    rewrite !bind_eq, Hfg. by apply IH. }
  rewrite (Hext _ _ _ _ Hbody). destruct Hsweep as [Hr Hl]. split; [done|].
  rewrite Hl. simpl. destruct (localStorage b !! k) as [s|] eqn:Hk; [|done].
  rewrite bool_decide_eq_true_2; [done|]. apply keys_of_store. by eexists.
Qed.

Lemma clearAll_reads b : reads (PersistentStorage.clearAll b).2 = reads b.
Proof.
  unfold PersistentStorage.clearAll, PersistentStorage.Object_keys.
  rewrite bind_eq. unfold gets at 1 2. simpl.
  generalize ((map_to_list (localStorage b)).*1). intros keys.
  revert b. induction keys as [|key keys IH]; intros b; simpl; [done|].
  rewrite bind_eq, IH. by destruct (String.prefix _ key).
Qed.

(** X6. [remove(key)] makes [get(key)] answer absent and touches nothing else:
    no other key of [localStorage], no other entry of the store, not the
    clock; on a key that has no entry it does nothing. *)
Theorem remove_forgets key b :
  let b' := (PersistentStorage.remove key b).2 in
  PersistentStorage.get js key b' = (None, b') ∧
  reads b' = reads b ∧
  (∀ k, k ≠ PersistentStorage.prefix +:+ key →
        localStorage b' !! k = localStorage b !! k) ∧
  (∀ key', key' ≠ key →
           (PersistentStorage.get js key' b').1 = (PersistentStorage.get js key' b).1) ∧
  (localStorage b !! (PersistentStorage.prefix +:+ key) = None → b' = b).
Proof.
  intros b'. subst b'.
  unfold PersistentStorage.remove, PersistentStorage.removeItem, modify. simpl.
  split_and!.
  - apply get_absent. simpl. apply lookup_delete_eq.
  - done.
  - intros k Hk. by apply lookup_delete_ne.
  - intros key' Hne. apply get_same_entry; [|done]. simpl.
    apply lookup_delete_ne. intros Heq. by apply key_inj in Heq.
  - intros Habsent. rewrite delete_id by done. by destruct b.
Qed.

(** X7. [clearAll()] deletes exactly the keys that start with the prefix of
    the store: afterwards [get] answers absent for every key, and what other
    code keeps in [localStorage] (the theme of the app) is as it was. The
    clock is not read. *)
Theorem clearAll_only_namespace b :
  let b' := (PersistentStorage.clearAll b).2 in
  reads b' = reads b ∧
  (∀ k, localStorage b' !! k =
        if String.prefix PersistentStorage.prefix k then None else localStorage b !! k) ∧
  (∀ key, PersistentStorage.get js key b' = (None, b')) ∧
  localStorage b' !! "theme" = localStorage b !! "theme".
Proof.
  intros b'. subst b'. split_and!.
  - apply clearAll_reads.
  - apply clearAll_lookup.
  - intros key. by apply (clearAll_empties js b).
  - by rewrite clearAll_lookup.
Qed.

(** X8. [clearExpired()] reads the clock once and deletes exactly the entries
    of the store whose text parses and whose expiry that reading has
    passed. An entry that is not expired keeps its text; an expired one is
    absent afterwards, so it is no longer there to fall back on; keys outside
    the store are kept. *)
Theorem clearExpired_exact b :
  let now := clock js (reads b) in
  let b' := (PersistentStorage.clearExpired js b).2 in
  reads b' = S (reads b) ∧
  (∀ k, localStorage b' !! k =
        match localStorage b !! k with
        | Some s =>
            if String.prefix PersistentStorage.prefix k && stale_text js now s
            then None else Some s
        | None => None
        end) ∧
  (∀ key, fresh_at js (localStorage b) now key = true →
          localStorage b' !! (PersistentStorage.prefix +:+ key)
            = localStorage b !! (PersistentStorage.prefix +:+ key)) ∧
  (∀ key s item,
     localStorage b !! (PersistentStorage.prefix +:+ key) = Some s →
     s ≠ "" → JSON_parse js s = Some item → expiry item < now →
     PersistentStorage.get js key b' = (None, b')) ∧
  (∀ k, String.prefix PersistentStorage.prefix k = false →
        localStorage b' !! k = localStorage b !! k).
Proof.
  intros now b'. subst b'.
  pose proof (λ k, proj2 (clearExpired_lookup b k)) as Hl. simpl in Hl. fold now in Hl.
  split_and!.
  - apply (clearExpired_lookup b "").
  - done.
  - intros key. rewrite Hl. unfold fresh_at, stale_text.
    destruct (localStorage b !! _) as [[|a s]|]; [done| |done].
    destruct (JSON_parse js _) as [item|]; [|by rewrite andb_false_r].
    destruct (now >? expiry item); [done | by rewrite andb_false_r].
  - intros key s item Hs Hne Hp Hexp. apply get_absent.
    rewrite Hl, Hs, prefix_key. unfold stale_text.
    destruct s as [|a s]; [done|]. rewrite Hp.
    by destruct (Z.gtb_spec now (expiry item)); [|lia].
  - intros k Hk. rewrite Hl, Hk. by destruct (localStorage b !! k).
Qed.


(** X10. A write that [localStorage] refuses stores nothing and throws
    nothing: it runs [clearExpired] at the next reading of the clock. So the
    entries that are expired then are deleted, the previous entry of the
    same key among them, and the others are kept. *)
Theorem set_refused_sweeps key (v : T) ttl b :
  let storedAt := clock js (reads b) in
  let item := mkCacheItem v storedAt (storedAt + ttl) in
  let now := clock js (S (reads b)) in
  let b' := (PersistentStorage.set js key v ttl b).2 in
  setItem_ok js (localStorage b) (PersistentStorage.prefix +:+ key)
    (JSON_stringify js item) = false →
  reads b' = S (S (reads b)) ∧
  (∀ k, localStorage b' !! k =
        match localStorage b !! k with
        | Some s =>
            if String.prefix PersistentStorage.prefix k && stale_text js now s
            then None else Some s
        | None => None
        end) ∧
  (localStorage b !! (PersistentStorage.prefix +:+ key) = None →
   PersistentStorage.get js key b' = (None, b')) ∧
  (∀ s, localStorage b !! (PersistentStorage.prefix +:+ key) = Some s →
        localStorage b' !! (PersistentStorage.prefix +:+ key)
          = if stale_text js now s then None else Some s).
Proof.
  intros storedAt item now b' Hno. subst b'.
  unfold PersistentStorage.set, PersistentStorage.setItem. rewrite !bind_eq.
  unfold PersistentStorage.Date_now at 1 2 3. simpl. fold storedAt. fold item.
  rewrite Hno. simpl.
  set (b1 := mkBrowser (localStorage b) (S (reads b))).
  pose proof (λ k, clearExpired_lookup b1 k) as Hl. simpl in Hl. fold now in Hl.
  split_and!.
  - apply (Hl "").
  - intros k. apply Hl.
  - intros Habsent. apply get_absent. by rewrite (proj2 (Hl _)), Habsent.
  - intros s Hs. by rewrite (proj2 (Hl _)), Hs, prefix_key.
Qed.

(** X11. An entry whose text is empty or does not parse is absent for [get],
    which neither reads the clock nor deletes it, and [clearExpired] never
    reclaims it: it stays until [remove], [clearAll] or an accepted [set] of
    its key. *)
Theorem unparseable_entry_stays key s b :
  localStorage b !! (PersistentStorage.prefix +:+ key) = Some s →
  s = "" ∨ JSON_parse js s = None →
  PersistentStorage.get js key b = (None, b) ∧
  localStorage (PersistentStorage.clearExpired js b).2 !! (PersistentStorage.prefix +:+ key)
    = Some s ∧
  localStorage (PersistentStorage.remove key b).2 !! (PersistentStorage.prefix +:+ key)
    = None ∧
  localStorage (PersistentStorage.clearAll b).2 !! (PersistentStorage.prefix +:+ key)
    = None.
Proof.
  intros Hs Hbad.
  assert (∀ now, stale_text js now s = false) as Hstale.
  { intros now. unfold stale_text. destruct Hbad as [->|Hp]; [done|].
    destruct s; [done|]. by rewrite Hp. }
  split_and!.
  - unfold PersistentStorage.get, PersistentStorage.getItem, bind, gets, ret.
    rewrite Hs. destruct Hbad as [->|Hp]; [done|]. destruct s; [done|]. by rewrite Hp.
  - by rewrite (proj2 (clearExpired_lookup b _)), Hs, Hstale, andb_false_r.
  - apply lookup_delete_eq.
  - by rewrite clearAll_lookup, prefix_key.
Qed.

End StorageMore.

(** ** The orchestrator and the fetch functions *)

Section OrchestratorMore.
Context {Task T : Type} (js : Platform T).
Import RequestQueue.

Implicit Types (w : World Task T).


End OrchestratorMore.

Section ApiMore.
Context {T : Type} (js : Platform T) (data_stocks : T → list Stock)
        (toISOString : Z → string).
Import RequestQueue.

Implicit Types (w : World Fetcher T).

Lemma await_pair {W A B} (p : Async W T A * W) (f : Settled A → State W (Async W T B)) :
  (let '(a', w') := p in (await_ a' f, w')) = (await_ p.1 f, p.2).
Proof. by destruct p. Qed.

(** Every call of [fetchWithCache] is logged with its key. *)
Lemma fetchWithCache_calls key (fetcher : Fetcher) forceRefresh w :
  calls (fetchWithCache js key fetcher forceRefresh w).2
    = calls w ++ [mkCall key fetcher forceRefresh].
Proof.
  rewrite fetchWithCache_unfold.
  destruct (PersistentStorage.get js key (browser w)).1 as [c|]; [|done].
  by destruct (negb (isExpired c) && negb forceRefresh).
Qed.

Lemma cache_key_of_fetchWithCache key (fetcher : Fetcher) forceRefresh w :
  cache_key_of (fetchWithCache js key fetcher forceRefresh) w = Some key.
Proof. unfold cache_key_of. by rewrite fetchWithCache_calls, last_snoc. Qed.

Lemma length_append (s1 s2 : string) :
  String.length (s1 +:+ s2) = (String.length s1 + String.length s2)%nat.
Proof. induction s1 as [|a s1 IH]; simpl; [done | by rewrite IH]. Qed.

Lemma append_inj_l (s1 s2 suffix : string) :
  s1 +:+ suffix = s2 +:+ suffix → s1 = s2.
Proof.
  revert s2. induction s1 as [|a s1 IH]; intros [|a2 s2] H; simpl in H.
  - done.
  - apply (f_equal String.length) in H. simpl in H. rewrite !length_append in H.
    simpl in H. lia.
  - apply (f_equal String.length) in H. simpl in H. rewrite !length_append in H.
    simpl in H. lia.
  - injection H as -> H. f_equal. by apply IH.
Qed.

(** X13. [fetchStocks] resolves with the list it got from [fetchWithCache],
    unchanged, one turn after it is known, and runs one prefetch pass over it
    just before: when the list came from a fresh entry (then without the
    queue), when it was fetched (then it is stored first), and when the fetch
    failed and an expired entry stood in. Only a failed fetch with no entry
    makes it reject, with the [ApiError] around the reason, and then no
    prefetch runs. *)
Theorem fetchStocks_settles w :
  let cached := (PersistentStorage.get js "stocks_list" (browser w)).1 in
  let a := (fetchStocks js data_stocks w).1 in
  let w1 := (fetchStocks js data_stocks w).2 in
  let served (result : T) (w' : World Fetcher T)
      : Async (World Fetcher T) T T * World Fetcher T :=
    (Done (Fulfilled result), (prefetchAllStocksDetails js (data_stocks result) w').2) in
  let queued (onError : Reason → World Fetcher T
                        → Async (World Fetcher T) T T * World Fetcher T) :=
    ∃ k, a = Await (promises (apiQueue w)) k ∧
      ∀ w2,
        (∀ result,
           next_turn (k (Fulfilled result) w2)
           = served result
               (storage (PersistentStorage.set js "stocks_list" result
                           PersistentStorage.defaultTTL) w2).2) ∧
        (∀ error, next_turn (k (Rejected error) w2) = onError error w2) in
  match cached with
  | Some c =>
      if isExpired c
      then queued (λ _ w2, served (r_value c) w2)
      else apiQueue w1 = apiQueue w ∧ ∀ w2, next_turn (a, w2) = served (r_value c) w2
  | None => queued (λ error w2, (Done (Rejected (fetchStocks_error error)), w2))
  end.
Proof.
  intros cached a w1 served queued. subst a w1 queued.
  unfold fetchStocks. rewrite !bind_eq, fetchWithCache_unfold. fold cached.
  destruct cached as [c|]; [destruct (isExpired c)|]; simpl.
  - eexists. split; [done|]. intros w2. split.
    + intros result. rewrite await_pair. unfold fetchWithCache_resume.
      rewrite bind_eq. unfold next_turn. simpl. by rewrite bind_eq.
    + intros error. unfold next_turn. simpl. by rewrite bind_eq.
  - split; [done|]. intros w2. unfold next_turn. simpl. by rewrite bind_eq.
  - eexists. split; [done|]. intros w2. split.
    + intros result. rewrite await_pair. unfold fetchWithCache_resume.
      rewrite bind_eq. unfold next_turn. simpl. by rewrite bind_eq.
    + intros error. done.
Qed.

(** X14. [fetchFilteredStocks] does to the store, the queue and the log what
    [fetchStocks] does, and settles one turn after it: with the envelope
    [{success: true, data, timestamp}] whose [data] is the filtered list that
    [fetchStocks] resolved with (the cached one, the fetched one, or the
    expired one after a failed fetch) and whose timestamp is read off the
    clock after the prefetch pass; or, having no [catch], with the very
    rejection of [fetchStocks]. *)
Theorem fetchFilteredStocks_settles filters w :
  let cached := (PersistentStorage.get js "stocks_list" (browser w)).1 in
  let a := (fetchFilteredStocks js data_stocks toISOString filters w).1 in
  let w1 := (fetchFilteredStocks js data_stocks toISOString filters w).2 in
  let served (result : T) (w' : World Fetcher T)
      : Async (World Fetcher T) T (ApiResponse.t (list Stock)) * World Fetcher T :=
    let w3 := (prefetchAllStocksDetails js (data_stocks result) w').2 in
    (Done (Fulfilled
       (ApiResponse.mk true
          (fetchFilteredStocks_filtered filters (data_stocks result))
          (toISOString (clock js (reads (browser w3)))))),
     (storage (PersistentStorage.Date_now js) w3).2) in
  let queued (onError : Reason → World Fetcher T
                        → Async (World Fetcher T) T (ApiResponse.t (list Stock))
                          * World Fetcher T) :=
    ∃ k, a = Await (promises (apiQueue w)) k ∧
      ∀ w2,
        (∀ result,
           next_turn (next_turn (k (Fulfilled result) w2))
           = served result
               (storage (PersistentStorage.set js "stocks_list" result
                           PersistentStorage.defaultTTL) w2).2) ∧
        (∀ error, next_turn (next_turn (k (Rejected error) w2)) = onError error w2) in
  w1 = (fetchStocks js data_stocks w).2 ∧
  match cached with
  | Some c =>
      if isExpired c
      then queued (λ _ w2, served (r_value c) w2)
      else ∀ w2, next_turn (next_turn (a, w2)) = served (r_value c) w2
  | None => queued (λ error w2, (Done (Rejected (fetchStocks_error error)), w2))
  end.
Proof.
  intros cached a w1 served queued. subst a w1 queued.
  unfold fetchFilteredStocks. rewrite !bind_eq. split; [done|].
  unfold fetchStocks. rewrite !bind_eq, fetchWithCache_unfold. fold cached.
  destruct cached as [c|]; [destruct (isExpired c)|]; simpl.
  - eexists. split; [done|]. intros w2. split.
    + intros result. rewrite !await_pair. unfold fetchWithCache_resume.
      rewrite bind_eq. unfold next_turn. simpl. rewrite ?await_pair, ?bind_eq. simpl.
      subst served. simpl. by rewrite ?bind_eq, ?storage_eq.
    + intros error. unfold next_turn. simpl. rewrite ?await_pair, ?bind_eq. simpl.
      subst served. simpl. by rewrite ?bind_eq, ?storage_eq.
  - intros w2. unfold next_turn. simpl. rewrite ?await_pair, ?bind_eq. simpl.
    subst served. simpl. by rewrite ?bind_eq, ?storage_eq.
  - eexists. split; [done|]. intros w2. split.
    + intros result. rewrite !await_pair. unfold fetchWithCache_resume.
      rewrite bind_eq. unfold next_turn. simpl. rewrite ?await_pair, ?bind_eq. simpl.
      subst served. simpl. by rewrite ?bind_eq, ?storage_eq.
    + intros error. done.
Qed.

(** [set] makes no entry but that of its key. *)
Lemma set_keeps_absent key (v : T) ttl b k :
  k ≠ PersistentStorage.prefix +:+ key →
  localStorage b !! k = None →
  localStorage (PersistentStorage.set js key v ttl b).2 !! k = None.
Proof.
  intros Hne Habsent.
  unfold PersistentStorage.set, PersistentStorage.setItem. rewrite !bind_eq.
  unfold PersistentStorage.Date_now at 1 2 3. simpl.
  destruct (setItem_ok js _ _ _); simpl.
  - by rewrite lookup_insert_ne.
  - rewrite (proj2 (clearExpired_lookup js _ k)). simpl. by rewrite Habsent.
Qed.

(** X15. The cache keys of the fetch functions. Each function keys its
    entries by its arguments: two stock codes, or two numbers of days, never
    share an entry of the same kind; the list, the details and the
    prediction series never share an entry with each other or with the history
    series. But the two history series do: the price history of the code
    ["pred_" + c] and the prediction history of the code [c] for the same
    number of days use one and the same key. *)
Theorem cache_keys_apart (c c' : string) (d d' : nat) w w' :
  let listKey := cache_key_of (fetchStocks js data_stocks) in
  let detail c := cache_key_of (fetchStockDetail js c) in
  let prediction c := cache_key_of (fetchStockPrediction js c) in
  let history c d := cache_key_of (fetchHistoricalData js c d) in
  let historyPred c d := cache_key_of (fetchHistoricalPredictions js c d) in
  (detail c w = detail c' w' → c = c') ∧
  (prediction c w = prediction c' w' → c = c') ∧
  (history c d w = history c' d w' → c = c') ∧
  (history c d w = history c d' w' → d = d') ∧
  (historyPred c d w = historyPred c' d w' → c = c') ∧
  (historyPred c d w = historyPred c d' w' → d = d') ∧
  listKey w ≠ detail c w' ∧
  listKey w ≠ prediction c w' ∧
  listKey w ≠ history c d w' ∧
  listKey w ≠ historyPred c d w' ∧
  detail c w ≠ prediction c' w' ∧
  detail c w ≠ history c' d w' ∧
  detail c w ≠ historyPred c' d w' ∧
  prediction c w ≠ history c' d w' ∧
  prediction c w ≠ historyPred c' d w' ∧
  history ("pred_" +:+ c) d w = historyPred c d w'.
Proof.
  intros listKey detail prediction history historyPred.
  assert (∀ w, listKey w = Some "stocks_list") as Hlist.
  { intros w0. subst listKey. unfold cache_key_of, fetchStocks.
    rewrite bind_eq. unfold ret. simpl. by rewrite fetchWithCache_calls, last_snoc. }
  subst detail prediction history historyPred.
  unfold fetchStockDetail, fetchStockPrediction, fetchHistoricalData,
    fetchHistoricalPredictions.
  rewrite !Hlist, !cache_key_of_fetchWithCache.
  split_and!; try (by intros [=]).
  - intros [= H]. change (c +:+ ("_" +:+ pretty d) = c' +:+ ("_" +:+ pretty d)) in H.
    by apply append_inj_l in H.
  - intros [= H]. change (c +:+ ("_" +:+ pretty d) = c +:+ ("_" +:+ pretty d')) in H.
    apply String.app_inj in H. apply (String.app_inj "_") in H.
    by apply pretty_nat_inj in H.
  - intros [= H]. change (c +:+ ("_" +:+ pretty d) = c' +:+ ("_" +:+ pretty d)) in H.
    by apply append_inj_l in H.
  - intros [= H]. change (c +:+ ("_" +:+ pretty d) = c +:+ ("_" +:+ pretty d')) in H.
    apply String.app_inj in H. apply (String.app_inj "_") in H.
    by apply pretty_nat_inj in H.
  - reflexivity.
Qed.

(** X16. The prefetch pass warms the price history under the key for 30
    days, the default of [fetchHistoricalData]. A call for any other number of
    days (the detail view asks for 20) reads another key, which no call of
    the pass uses and no successful fetch of the pass fills: when that key
    has no entry, it still has none after such a fetch has stored its
    result, and the call goes through the queue. *)
Theorem prefetch_history_days (s : Stock) (days : nat) :
  days ≠ 30%nat →
  let viewed := "stock_history_" +:+ code s +:+ "_" +:+ pretty days in
  (∀ w, cache_key_of (fetchHistoricalData js (code s) days) w = Some viewed) ∧
  (∀ F call, call ∈ prefetch_calls F s → call_key call ≠ viewed) ∧
  (∀ F call cached data w,
     call ∈ prefetch_calls F s →
     localStorage (browser w) !! (PersistentStorage.prefix +:+ viewed) = None →
     let w' := (fetchWithCache_resume js (call_key call) cached (Fulfilled data) w).2 in
     localStorage (browser w') !! (PersistentStorage.prefix +:+ viewed) = None ∧
     ∃ k, (fetchHistoricalData js (code s) days w').1 = Await (promises (apiQueue w')) k).
Proof.
  intros Hdays viewed.
  assert (∀ F call, call ∈ prefetch_calls F s → call_key call ≠ viewed) as Hkeys.
  { intros F call Hin. unfold prefetch_calls in Hin.
    rewrite !elem_of_app in Hin. subst viewed.
    destruct Hin as [Hin|[Hin|Hin]];
      match type of Hin with context [if ?b then _ else _] => destruct b end;
      try (by apply elem_of_nil in Hin);
      apply list_elem_of_singleton in Hin; subst call; simpl; try (by intros [=]).
    intros [= H]. change (code s +:+ ("_" +:+ pretty 30%nat)
                            = code s +:+ ("_" +:+ pretty days)) in H.
    apply String.app_inj in H. apply (String.app_inj "_") in H.
    by apply pretty_nat_inj in H. }
  split_and!; [|done|].
  - intros w. apply cache_key_of_fetchWithCache.
  - intros F call cached data w Hin Habsent w'.
    assert (localStorage (browser w') !! (PersistentStorage.prefix +:+ viewed) = None)
      as Hstill.
    { subst w'. unfold fetchWithCache_resume. rewrite bind_eq, storage_eq. simpl.
      apply set_keeps_absent; [|done].
      intros Heq. apply key_inj in Heq. by apply (Hkeys F call). }
    split; [done|].
    unfold fetchHistoricalData. fold viewed. rewrite fetchWithCache_unfold.
    rewrite (get_absent js _ _ Hstill). simpl. by eexists.
Qed.

End ApiMore.

(** ** Filtering and the derived metrics *)

Lemma filter_elem_of {A} (P : A → bool) (l : list A) (x : A) :
  x ∈ List.filter P l ↔ x ∈ l ∧ P x = true.
Proof.
  by rewrite !list_elem_of_In, filter_In.
Qed.

Lemma filter_sublist {A} (P : A → bool) (l : list A) : sublist (List.filter P l) l.
Proof.
  induction l as [|y l IH]; simpl; [constructor|].
  destruct (P y); by constructor.
Qed.

Lemma filter_filter_same {A} (P : A → bool) (l : list A) :
  List.filter P (List.filter P l) = List.filter P l.
Proof.
  induction l as [|y l IH]; simpl; [done|].
  destruct (P y) eqn:Hy; simpl; [|done]. by rewrite Hy, IH.
Qed.




(** X17. What [fetchFilteredStocks] hands on is a part of the list it got, in
    the same order: with both directions switched off the whole list, else
    exactly the stocks that one of the enabled directions matches by one of
    the two methods. With both directions on it is the stocks of the up-only
    filter together with those of the down-only filter, and filtering twice
    changes nothing. *)
Theorem fetchFilteredStocks_filtered_spec filters stocks :
  let out := fetchFilteredStocks_filtered filters stocks in
  let up := mkStockFilterParams true false
              (upTrendThreshold filters) (downTrendThreshold filters) in
  let down := mkStockFilterParams false true
                (upTrendThreshold filters) (downTrendThreshold filters) in
  sublist out stocks ∧
  (upTrendEnabled filters = false → downTrendEnabled filters = false → out = stocks) ∧
  (upTrendEnabled filters || downTrendEnabled filters = true →
   ∀ s, s ∈ out ↔ s ∈ stocks ∧ trend_match filters s = true) ∧
  (upTrendEnabled filters = true → downTrendEnabled filters = true →
   ∀ s, s ∈ out ↔ s ∈ fetchFilteredStocks_filtered up stocks
                  ∨ s ∈ fetchFilteredStocks_filtered down stocks) ∧
  fetchFilteredStocks_filtered filters out = out.
Proof.
  intros out up down. subst out. unfold fetchFilteredStocks_filtered.
  split_and!.
  - destruct (_ || _); [apply filter_sublist | done].
  - by intros -> ->.
  - intros ->. intros s. apply filter_elem_of.
  - intros Hu Hd s. rewrite Hu, Hd. simpl. rewrite !filter_elem_of.
    unfold trend_match. rewrite Hu, Hd. simpl.
    rewrite !orb_false_r.
    destruct (upTrendThreshold filters <=? changePercent1 s)%float,
             (changePercent1 s <=? downTrendThreshold filters)%float,
             (upTrendThreshold filters <=? changePercent2 s)%float,
             (changePercent2 s <=? downTrendThreshold filters)%float;
      simpl; naive_solver.
  - destruct (_ || _); [apply filter_filter_same | done].
Qed.


(** X19. The detail of a stock carries the metrics that the list shows for
    it: for the same three prices the record of [fetchStockDetail] extends
    the one of the per-stock task of [fetchStocks]. Its industry is the first
    keyword of the backend record, or the fixed text when there is none or it
    is empty, so never the empty string. *)
Theorem detail_extends_list_entry (data : BackendStock) (cp p1 p2 : float) :
  let detail := fetchStockDetail_stockDetail data cp p1 p2 in
  stock detail = fetchStocks_withPrices (mapToFrontendStock data) cp p1 p2 ∧
  code (stock detail) = symbol data ∧
  industry detail ≠ "" ∧
  (∀ k rest, keywords data = k :: rest → k ≠ "" → industry detail = k) ∧
  (hd "" (keywords data) = "" → industry detail = "未知產業").
Proof.
  intros detail. subst detail. unfold fetchStockDetail_stockDetail. simpl.
  unfold first_keyword_or. split_and!; try done.
  - by destruct (keywords data) as [|[|a k] rest].
  - intros k rest -> Hk. by destruct k.
  - by destruct (keywords data) as [|[|a k] rest].
Qed.

(** ** The fetch functions on the shared queue *)

Section SharedQueue.
Context {T : Type} (js : Platform T) (data_stocks : T → list Stock)
        (toISOString : Z → string).
Import RequestQueue.

Implicit Types (w : World Fetcher T) (q : RequestQueue.Sched Fetcher T).

Lemma adds_only_refl q : adds_only 0 q q.
Proof. by exists []. Qed.

Lemma adds_only_trans n1 n2 q q1 q2 :
  adds_only n1 q q1 → adds_only n2 q1 q2 → adds_only (n1 + n2) q q2.
Proof.
  intros (t1 & Hl1 & H1) (t2 & Hl2 & H2). exists (t1 ++ t2). split.
  - rewrite length_app. lia.
  - by rewrite fmap_app, run_app, H1.
Qed.

Lemma adds_only_le n m q q' : (n ≤ m)%nat → adds_only n q q' → adds_only m q q'.
Proof. intros Hle (t & Hl & H). exists t. split; [lia | done]. Qed.

Lemma adds_only_handles n q q' : adds_only n q q' → handles q' = handles q.
Proof.
  intros (tasks & _ & Hrun). revert q Hrun.
  induction tasks as [|t tasks IH]; intros q Hrun; simpl in Hrun.
  - by injection Hrun as <-.
  - rewrite (IH _ Hrun). apply add_spec.
Qed.

Lemma fetchWithCache_adds key (fetcher : Fetcher) forceRefresh w :
  adds_only 1 (apiQueue w) (apiQueue (fetchWithCache js key fetcher forceRefresh w).2).
Proof.
  rewrite fetchWithCache_unfold.
  assert (adds_only 1 (apiQueue w) (add fetcher (apiQueue w)).2) as Hadd
    by (exists [fetcher]; split; [simpl; lia | done]).
  destruct (PersistentStorage.get js key (browser w)).1 as [c|]; [|done].
  destruct (negb (isExpired c) && negb forceRefresh); [|done].
  apply (adds_only_le 0); [lia | apply adds_only_refl].
Qed.

Lemma has_fresh_queue key w : apiQueue (has_fresh js key w).2 = apiQueue w.
Proof. unfold has_fresh. rewrite bind_eq, storage_eq. done. Qed.

Lemma fire_adds key (fetcher : Fetcher) (fire : bool) w :
  adds_only 1 (apiQueue w)
    (apiQueue ((if fire then fire_and_forget (fetchWithCache js key fetcher false)
                else ret ()) w).2).
Proof.
  destruct fire.
  - unfold fire_and_forget. rewrite bind_eq. apply fetchWithCache_adds.
  - apply (adds_only_le 0); [lia | apply adds_only_refl].
Qed.

Lemma prefetch_adds (stocks : list Stock) w :
  adds_only (3 * length stocks) (apiQueue w)
    (apiQueue (prefetchAllStocksDetails js stocks w).2).
Proof.
  revert w. induction stocks as [|s stocks IH]; intros w.
  - apply adds_only_refl.
  - unfold prefetchAllStocksDetails in *. simpl forEach. rewrite !bind_eq.
    apply (adds_only_le (3 + 3 * length stocks)); [simpl; lia|].
    eapply adds_only_trans; [|apply IH].
    unfold fetchStockDetail, fetchHistoricalData, fetchStockPrediction.
    set (w1 := (has_fresh js _ w).2).
    set (w2 := (has_fresh js _ w1).2).
    set (w3 := (has_fresh js _ w2).2).
    assert (apiQueue w = apiQueue w3) as ->.
    { subst w1 w2 w3. by rewrite !has_fresh_queue. }
    eapply (adds_only_trans 1 2); [apply fire_adds|].
    eapply (adds_only_trans 1 1); apply fire_adds.
Qed.

Lemma adds_within c evs n q q' :
  0 ≤ c →
  run evs (new c) = Some q →
  adds_only n q q' →
  (∃ tasks : list Fetcher,
     (length tasks ≤ n)%nat ∧ run (evs ++ (Add <$> tasks)) (new c) = Some q') ∧
  0 ≤ activeCount (rq q') ≤ c ∧
  Z.of_nat (size (running q')) ≤ c ∧
  handles q' = handles q.
Proof.
  intros Hc Hrun Hadds. pose proof (adds_only_handles _ _ _ Hadds) as Hh.
  destruct Hadds as (tasks & Hl & Hq').
  assert (run (evs ++ (Add <$> tasks)) (new c) = Some q') as Hall
    by (by rewrite run_app, Hrun).
  pose proof (run_inv _ _ _ Hall) as I.
  pose proof (inv_cap _ _ _ I Hc). pose proof (inv_count _ _ _ I).
  split_and!; [by exists tasks | lia | lia | lia | done].
Qed.

(** X20. The fetch functions reach the shared queue through [add] only, and
    at the call itself never settle or start anything by another way: one
    [add] at most for a call of [fetchWithCache], of one of the four
    per-stock fetch functions, of [fetchStocks], [refreshStocksData] or
    [fetchFilteredStocks], three for each stock at most for a prefetch pass.
    So on a queue of a capacity that is not negative, however many of them
    are called, the operations that run at once stay within the capacity. *)
Theorem fetch_functions_respect_capacity c evs w :
  0 ≤ c →
  run evs (new c) = Some (apiQueue w) →
  let within (n : nat) (w' : World Fetcher T) :=
    (∃ tasks : list Fetcher,
       (length tasks ≤ n)%nat ∧
       run (evs ++ (Add <$> tasks)) (new c) = Some (apiQueue w')) ∧
    0 ≤ activeCount (rq (apiQueue w')) ≤ c ∧
    Z.of_nat (size (running (apiQueue w'))) ≤ c ∧
    handles (apiQueue w') = handles (apiQueue w) in
  (∀ key fetcher forceRefresh,
     within 1%nat (fetchWithCache js key fetcher forceRefresh w).2) ∧
  (∀ code, within 1%nat (fetchStockDetail js code w).2) ∧
  (∀ code, within 1%nat (fetchStockPrediction js code w).2) ∧
  (∀ code days, within 1%nat (fetchHistoricalData js code days w).2) ∧
  (∀ code days, within 1%nat (fetchHistoricalPredictions js code days w).2) ∧
  (∀ stocks, within (3 * length stocks)%nat (prefetchAllStocksDetails js stocks w).2) ∧
  within 1%nat (fetchStocks js data_stocks w).2 ∧
  within 1%nat (refreshStocksData js data_stocks w).2 ∧
  (∀ filters, within 1%nat (fetchFilteredStocks js data_stocks toISOString filters w).2).
Proof.
  intros Hc Hrun within.
  assert (∀ n w', adds_only n (apiQueue w) (apiQueue w') → within n w') as Hin
    by (intros n w'; apply (adds_within c evs n _ _ Hc Hrun)).
  clearbody within.
  split_and!; intros; apply Hin; try apply fetchWithCache_adds.
  - apply prefetch_adds.
  - unfold fetchStocks. rewrite bind_eq. apply fetchWithCache_adds.
  - unfold refreshStocksData, fetchStocks. rewrite !bind_eq.
    pose proof (fetchWithCache_adds "stocks_list" fetchStocks_fetchLogic false
                  (storage PersistentStorage.clearAll w).2) as H.
    by rewrite storage_eq in H |- *.
  - unfold fetchFilteredStocks, fetchStocks. rewrite !bind_eq.
    apply fetchWithCache_adds.
Qed.

End SharedQueue.

Section NestedQueue.
Context {Task T : Type}.
Import RequestQueue.

Implicit Types (s : RequestQueue.Sched Task T) (evs : list (RequestQueue.Event Task T)).

(** The handle of a task that waits is not settled. *)
Lemma queued_unsettled c evs s x :
  inv c evs s → x ∈ queue (rq s) → handles s !! handle x = None.
Proof.
  intros I Hx. destruct (handles s !! handle x) eqn:Hx'; [|done]. exfalso.
  destruct (inv_settled_done _ _ _ I (handle x)) as [_ Hin]; [by eexists|].
  pose proof (inv_NoDup _ _ _ I) as ND. rewrite fmap_app in ND.
  apply NoDup_app in ND as (_ & Hdisj & _).
  apply (Hdisj _ Hin). by apply list_elem_of_fmap_2.
Qed.

(** [add] on a queue without a free slot makes the promise and lets the task
    wait. *)
Lemma add_when_full (task : Task) s :
  concurrency (rq s) ≤ activeCount (rq s) →
  (add task s).2 =
    mkSched (mk (queue (rq s) ++ [mkItem task (promises s)])
                (activeCount (rq s)) (concurrency (rq s)))
            (S (promises s)) (invoked s) (running s) (finishing s) (handles s).
Proof.
  intros Hfull. unfold add, new_promise, push, processNext, bind, modify, ret. simpl.
  destruct (Z.geb_spec (activeCount (rq s)) (concurrency (rq s))); [done | lia].
Qed.

Lemma blocked_steps (waits : nat → list nat) (s : RequestQueue.Sched Task T) post :
  (∀ h, h ∈ running s →
        ∃ x, x ∈ queue (rq s) ∧ handle x ∈ waits h ∧ handles s !! handle x = None) →
  ∀ s0 s',
    invoked s0 = invoked s → running s0 = running s → finishing s0 = ∅ →
    handles s0 = handles s → concurrency (rq s0) ≤ activeCount (rq s0) →
    queue (rq s) `prefix_of` queue (rq s0) →
    run_nested waits post s0 = Some s' →
    invoked s' = invoked s ∧ running s' = running s ∧ finishing s' = ∅ ∧
    handles s' = handles s ∧
    queue (rq s) `prefix_of` queue (rq s') ∧
    (∀ ev, ev ∈ post → ∃ task, ev = Add task) ∧
    pendingCount s' = (pendingCount s0 + length post)%nat.
Proof.
  intros Hwaits. induction post as [|ev post IH]; intros s0 s' Hi Hr Hf Hh Hfull Hq Hrun.
  - injection Hrun as <-. split_and!; try done; try (simpl; lia).
    intros ev Hev. by apply elem_of_nil in Hev.
  - simpl in Hrun. destruct ev as [task|h o|h]; simpl in Hrun.
    + rewrite add_when_full in Hrun by done.
      apply IH in Hrun as (? & ? & ? & ? & ? & Hadds & Hlen); simpl; try done.
      * split_and!; try done.
        -- intros ev Hev. apply elem_of_cons in Hev as [->|Hev]; [by eexists | by apply Hadds].
        -- rewrite Hlen. unfold pendingCount. simpl. rewrite length_app. simpl. lia.
      * by apply prefix_app_r.
    + exfalso.
      destruct (forallb _ (waits h)) eqn:Hall; [|done].
      destruct (decide (h ∈ running s0)) as [Hin|]; [|done].
      rewrite Hr in Hin. destruct (Hwaits h Hin) as (x & _ & Hw & Hnone).
      rewrite forallb_forall in Hall. apply list_elem_of_In, Hall in Hw.
      apply bool_decide_eq_true in Hw. rewrite Hh, Hnone in Hw. by destruct Hw.
    + exfalso. destruct (decide (h ∈ finishing s0)) as [Hin|]; [|done].
      rewrite Hf in Hin. set_solver.
Qed.

(** X21. The shared queue can lock up when operations wait for tasks of the
    same queue, as the list fetch of [fetchStocks] waits for its per-stock
    tasks. Once every slot is held by a running operation that awaits the
    promise of a task that still waits in the queue, nothing can happen but
    further calls of [add]: no operation settles, no slot is given back, no
    task is started, and every task that is added waits too. (With the three
    slots of [apiQueue] it takes three list fetches at once.) *)
Theorem queue_locked_by_nested_waits (waits : nat → list nat) c evs s post s' :
  run evs (new c) = Some s →
  Z.of_nat (size (running s)) = c →
  (∀ h, h ∈ running s → ∃ x, x ∈ queue (rq s) ∧ handle x ∈ waits h) →
  run_nested waits post s = Some s' →
  (∀ ev, ev ∈ post → ∃ task, ev = Add task) ∧
  invoked s' = invoked s ∧
  running s' = running s ∧
  handles s' = handles s ∧
  activeCount (rq s') = c ∧
  queue (rq s) `prefix_of` queue (rq s') ∧
  pendingCount s' = (pendingCount s + length post)%nat.
Proof.
  intros Hrun Hsize Hwaits Hpost.
  pose proof (run_inv _ _ _ Hrun) as I.
  pose proof (inv_count _ _ _ I) as Hcount.
  assert (0 ≤ c) as Hc by lia.
  pose proof (inv_cap _ _ _ I Hc) as Hcap.
  assert (finishing s = ∅) as Hfin.
  { apply leibniz_equiv, size_empty_iff. lia. }
  destruct (blocked_steps waits s post) with (s0 := s) (s' := s')
    as (Hi & Hr & Hf & Hh & Hq & Hadds & Hlen); try done.
  - intros h Hin. destruct (Hwaits h Hin) as (x & Hx & Hw).
    exists x. split_and!; [done | done | by eapply queued_unsettled].
  - rewrite (inv_conc _ _ _ I). lia.
  - split_and!; try done.
    assert (∃ tasks : list Task, post = Add <$> tasks) as [tasks ->].
    { clear -Hadds. induction post as [|ev post IH]; [by exists []|].
      destruct (Hadds ev) as [task ->]; [left|].
      destruct IH as [tasks ->]; [intros ev Hev; apply Hadds; by right|].
      by exists (task :: tasks). }
    assert (run (Add <$> tasks) s = Some s') as Hrun'.
    { clear -Hpost. revert s Hpost. induction tasks as [|t tasks IH]; intros s Hpost;
        simpl in *; [done | by apply IH]. }
    pose proof (run_inv _ _ _ (run_extend _ _ _ _ _ Hrun Hrun')) as I'.
    rewrite (inv_count _ _ _ I'), Hr, Hf, size_empty. lia.
Qed.

End NestedQueue.

(** ** The further properties at concrete inputs *)

(** A queue of capacity 1 with two tasks: the second waits and the slot is
    taken. *)
Lemma queue_no_idle_slot_witness :
  let evs := [RequestQueue.Add "t0"; RequestQueue.Add "t1"] in
  ∃ s : RequestQueue.Sched string Z,
    RequestQueue.run evs (RequestQueue.new 1) = Some s ∧
    RequestQueue.queue (RequestQueue.rq s) ≠ [] ∧
    RequestQueue.activeCount (RequestQueue.rq s) = 1.
Proof.
  intros evs. eexists. split; [vm_compute; reflexivity|].
  split; [vm_compute; discriminate|].
  destruct (queue_no_idle_slot 1 evs _ ltac:(vm_compute; reflexivity)
              ltac:(vm_compute; discriminate)) as (_ & H & _).
  apply H. lia.
Defined.

(** A queue of capacity 0: both tasks wait. *)
Lemma queue_without_capacity_witness :
  let evs := [RequestQueue.Add "t0"; RequestQueue.Add "t1"] in
  ∃ s : RequestQueue.Sched string Z,
    RequestQueue.run evs (RequestQueue.new 0) = Some s ∧
    RequestQueue.invoked s = [] ∧
    RequestQueue.queue (RequestQueue.rq s) = RequestQueue.added_from 0 evs.
Proof.
  intros evs. eexists. split; [vm_compute; reflexivity|].
  destruct (queue_without_capacity 0 evs _ ltac:(lia) ltac:(vm_compute; reflexivity))
    as (Hi & Hq & _).
  split; [exact Hi | exact Hq].
Defined.

(** Three tasks on a queue of capacity 2. *)
Lemma queue_each_task_once_witness :
  let evs := [RequestQueue.Add "t0"; RequestQueue.Add "t1"; RequestQueue.Add "t2"] in
  ∃ s : RequestQueue.Sched string Z,
    RequestQueue.run evs (RequestQueue.new 2) = Some s ∧
    (RequestQueue.pendingCount s + length (RequestQueue.invoked s))%nat
      = RequestQueue.promises s.
Proof.
  intros evs. eexists. split; [vm_compute; reflexivity|].
  destruct (queue_each_task_once 2 evs _ ltac:(vm_compute; reflexivity))
    as (_ & _ & _ & H & _).
  exact H.
Defined.

(** The handle of the first task, settled before the second task is added. *)
Lemma queue_handle_settled_for_good_witness :
  let pre := [RequestQueue.Add "t0"; RequestQueue.Settle 0 (Fulfilled 7)] in
  let post := [RequestQueue.Finally 0; RequestQueue.Add "t1"] in
  ∃ s1 s : RequestQueue.Sched string Z,
    RequestQueue.run pre (RequestQueue.new 1) = Some s1 ∧
    RequestQueue.run post s1 = Some s ∧
    RequestQueue.handles s !! 0%nat = Some (Fulfilled 7).
Proof.
  intros pre post. eexists. eexists.
  split; [vm_compute; reflexivity|]. split; [vm_compute; reflexivity|].
  destruct (queue_handle_settled_for_good 1 pre post _ _ 0%nat (Fulfilled 7)
              ltac:(vm_compute; reflexivity) ltac:(vm_compute; reflexivity)
              ltac:(vm_compute; reflexivity)) as (H & _).
  exact H.
Defined.



(** A full [localStorage]: [set("b", 2, 5000)] at 0 stores nothing, and the
    sweep at 2000 deletes the entry that expired at 1000. *)
Lemma set_refused_sweeps_witness :
  let js := Demo.full_platform (Demo.readings [0; 2000]) in
  let b := mkBrowser {[ "stock_app_cache_a" := "1,0,1000" ]} 0 in
  let b' := (PersistentStorage.set js "b" 2 5000 b).2 in
  reads b' = 2%nat ∧
  localStorage b' !! "stock_app_cache_a" = None ∧
  PersistentStorage.get js "b" b' = (None, b').
Proof.
  intros js b b'.
  pose proof (set_refused_sweeps js "b" 2 5000 b) as H. cbv zeta in H.
  destruct H as (Hr & Hl & Habsent & _); [reflexivity|].
  split; [exact Hr|]. split.
  - subst b'. rewrite (Hl "stock_app_cache_a"). vm_compute. reflexivity.
  - apply Habsent. vm_compute. reflexivity.
Defined.

(** An entry that is not the text of an item. *)
Lemma unparseable_entry_stays_witness :
  let js := Demo.platform (λ _, 0) in
  let b := mkBrowser {[ "stock_app_cache_x" := "garbage" ]} 0 in
  PersistentStorage.get js "x" b = (None, b) ∧
  localStorage (PersistentStorage.clearExpired js b).2 !! "stock_app_cache_x"
    = Some "garbage".
Proof.
  intros js b.
  destruct (unparseable_entry_stays js "x" "garbage" b) as (Hget & Hkept & _).
  - reflexivity.
  - right. vm_compute. reflexivity.
  - split; [exact Hget | exact Hkept].
Defined.

(** The detail view asks for 20 days of the stock 2330. *)
Lemma prefetch_history_days_witness :
  let js := Demo.platform (λ _, 0) in
  cache_key_of (fetchHistoricalData js "2330" 20) (Demo.fresh_world 3)
  = Some "stock_history_2330_20".
Proof.
  intros js.
  destruct (prefetch_history_days js (Demo.stock_of "2330") 20) as (Hkey & _).
  - lia.
  - apply Hkey.
Defined.

(** [fetchStocks] on the new queue of capacity 3. *)
Lemma fetch_functions_respect_capacity_witness :
  let js := Demo.platform (λ _, 0) in
  let w : World Fetcher Z := Demo.fresh_world 3 in
  0 ≤ RequestQueue.activeCount
        (RequestQueue.rq (apiQueue (fetchStocks js (λ _, []) w).2)) ≤ 3.
Proof.
  intros js w.
  pose proof (fetch_functions_respect_capacity js (λ _, []) (λ _, EmptyString) 3 [] w)
    as H. cbv zeta in H.
  destruct H as (_ & _ & _ & _ & _ & _ & (_ & Hcap & _) & _); [lia | reflexivity|].
  exact Hcap.
Defined.

(** Three list fetches hold the three slots of the queue, each waiting for
    the task of its one stock: a further task waits as well. *)
Lemma queue_locked_by_nested_waits_witness :
  let evs := [RequestQueue.Add fetchStocks_fetchLogic;
              RequestQueue.Add fetchStocks_fetchLogic;
              RequestQueue.Add fetchStocks_fetchLogic;
              RequestQueue.Add (fetchStocks_stockTask "2330");
              RequestQueue.Add (fetchStocks_stockTask "2330");
              RequestQueue.Add (fetchStocks_stockTask "2330")] in
  let waits (h : nat) := [(h + 3)%nat] in
  let post := [RequestQueue.Add (fetchStockDetail_fetchLogic "2330")] in
  ∃ s s' : RequestQueue.Sched Fetcher Z,
    RequestQueue.run evs (RequestQueue.new 3) = Some s ∧
    run_nested waits post s = Some s' ∧
    RequestQueue.invoked s' = RequestQueue.invoked s ∧
    RequestQueue.pendingCount s' = 4%nat.
Proof.
  intros evs waits post. eexists. eexists.
  split; [vm_compute; reflexivity|]. split; [vm_compute; reflexivity|].
  match goal with
  | |- RequestQueue.invoked ?s' = RequestQueue.invoked ?s ∧ _ =>
      destruct (queue_locked_by_nested_waits waits 3 evs s post s')
        as (_ & Hi & _ & _ & _ & _ & Hp)
  end.
  - vm_compute. reflexivity.
  - vm_compute. reflexivity.
  - intros h Hin. apply elem_of_elements in Hin. vm_compute in Hin.
    exists (RequestQueue.mkItem (fetchStocks_stockTask "2330") (h + 3)).
    split; [|left].
    repeat (apply elem_of_cons in Hin as [->|Hin]);
      try (by apply elem_of_nil in Hin);
      apply list_elem_of_In; vm_compute; auto.
  - vm_compute. reflexivity.
  - split; [exact Hi | exact Hp].
Defined.
